(** * ORBITAL coordination core: event bus, state store, analytics queue

    A shallow embedding of the coordination core of [script.js]
    ([ORBITAL.events], [ORBITAL.state], [ORBITAL.modules.analytics]) and the
    properties of its dispatch discipline.

    The three registries of the script ([events], [store], [listeners]) are
    plain object literals, so a property read that misses the object's own
    properties continues in [Object.prototype].  Handler lists are JavaScript
    arrays held by reference: [push] grows an array in place, [filter]
    allocates a new one, and [forEach] walks the array it was called on with
    the length it had when the walk began.  Both facts are part of the model. *)

From stdpp Require Import gmap strings list.

Open Scope string_scope.
Open Scope list_scope.
Open Scope nat_scope.

(** ** Values *)

Inductive value : Type :=
  | VUndefined
  | VNull
  | VBool (b : bool)
  | VNum (n : Z)
  | VStr (s : string)
  | VObject (o : nat)          (* an object made by client code, by reference *)
  | VEmpty (n : nat)           (* the [{}] that call [n] of analytics.log made
                                  for a missing payload *)
  | VNative (name : string)    (* a function inherited from Object.prototype *)
  | VObjectPrototype.          (* Object.prototype itself *)

(** What a [throw] carries: a [TypeError] raised by the engine (calling
    something that is not a function), or a value thrown by client code. *)
Inductive exn : Type :=
  | TypeError
  | Thrown (v : value).

(** The record analytics.log builds.  [serial] is the identity of the object:
    the number of the call of analytics.log that allocated it. *)
Record event_record : Type := EventRecord {
  serial : nat;
  type : string;
  payload : value;
  timestamp : Z;
  url : string
}.

(** A line handed to [console.log] by ORBITAL.utils.log. *)
Inductive console_line : Type :=
  | LogEvent (event : string) (data : value)
  | LogState (key : string) (v : value)
  | LogAnalytics (event : event_record).

(** ** Property names inherited from Object.prototype *)

Definition native_names : list string :=
  [ "constructor"; "hasOwnProperty"; "isPrototypeOf"; "propertyIsEnumerable";
    "toLocaleString"; "toString"; "valueOf";
    "__defineGetter__"; "__defineSetter__";
    "__lookupGetter__"; "__lookupSetter__" ].

Definition is_native (k : string) : bool := bool_decide (k ∈ native_names).

(** [Object.prototype[k]]: a built-in function, the prototype itself for the
    accessor [__proto__], [undefined] for every other name. *)
Definition object_prototype_get (k : string) : value :=
  if is_native k then VNative k
  else if bool_decide (k = "__proto__") then VObjectPrototype
  else VUndefined.

Definition inherited (k : string) : bool :=
  is_native k || bool_decide (k = "__proto__").

(** Arrays live in a heap and are named by their address. *)
Abbreviation loc := nat (only parsing).

(** The result of reading [o[k]] on a registry whose own properties all hold
    arrays. *)
Inductive slot : Type :=
  | Absent                (* undefined: falsy *)
  | Own (a : loc)         (* an array of the registry: truthy *)
  | Inherited.            (* a member of Object.prototype: truthy, no array *)

Definition prop_lookup (o : gmap string loc) (k : string) : slot :=
  match o !! k with
  | Some a => Own a
  | None => if inherited k then Inherited else Absent
  end.

Definition MAX_QUEUE : nat := 50.

Section Orbital.

(** Handler functions are compared by reference ([h !== handler]); [hid] is
    the type of those references. *)
Context {hid : Type} `{EqDecision hid}.

(** Private state that client closures keep between calls. *)
Context {client : Type}.

(** One invocation of a handler, on the ghost call log. *)
Record call : Type := Call {
  call_depth : nat;
  callee : hid;
  argument : value
}.

(** The state of the page: the closure variables of the three modules, the
    array heap, the debug flag and console, and two ghost fields ([depth],
    [calls]) that log handler invocations. *)
Record orbital : Type := Orbital {
  debug : bool;                       (* ORBITAL.config.debug *)
  console : list console_line;
  heap : list (list hid);             (* the handler arrays, by address *)
  events : gmap string loc;           (* own properties of [events] *)
  store : gmap string value;          (* own properties of [store] *)
  store_proto_null : bool;            (* [store]'s prototype was set to null *)
  listeners : gmap string loc;        (* own properties of [listeners] *)
  queue : list event_record;          (* the array [queue], address 0 *)
  copies : list (list event_record);  (* arrays made by getQueue, address S i *)
  logged : nat;                       (* calls of analytics.log so far *)
  client_state : client;
  depth : nat;                        (* handler frames on the stack *)
  calls : list call
}.

Definition with_console (f : list console_line → list console_line) (s : orbital) :=
  Orbital (debug s) (f (console s)) (heap s) (events s) (store s)
    (store_proto_null s) (listeners s) (queue s) (copies s) (logged s)
    (client_state s) (depth s) (calls s).
Definition with_heap (h : list (list hid)) (s : orbital) :=
  Orbital (debug s) (console s) h (events s) (store s)
    (store_proto_null s) (listeners s) (queue s) (copies s) (logged s)
    (client_state s) (depth s) (calls s).
Definition with_events (e : gmap string loc) (s : orbital) :=
  Orbital (debug s) (console s) (heap s) e (store s)
    (store_proto_null s) (listeners s) (queue s) (copies s) (logged s)
    (client_state s) (depth s) (calls s).
Definition with_store (m : gmap string value) (s : orbital) :=
  Orbital (debug s) (console s) (heap s) (events s) m
    (store_proto_null s) (listeners s) (queue s) (copies s) (logged s)
    (client_state s) (depth s) (calls s).
Definition with_store_proto_null (b : bool) (s : orbital) :=
  Orbital (debug s) (console s) (heap s) (events s) (store s)
    b (listeners s) (queue s) (copies s) (logged s)
    (client_state s) (depth s) (calls s).
Definition with_listeners (l : gmap string loc) (s : orbital) :=
  Orbital (debug s) (console s) (heap s) (events s) (store s)
    (store_proto_null s) l (queue s) (copies s) (logged s)
    (client_state s) (depth s) (calls s).
Definition with_queue (q : list event_record) (s : orbital) :=
  Orbital (debug s) (console s) (heap s) (events s) (store s)
    (store_proto_null s) (listeners s) q (copies s) (logged s)
    (client_state s) (depth s) (calls s).
Definition with_copies (c : list (list event_record)) (s : orbital) :=
  Orbital (debug s) (console s) (heap s) (events s) (store s)
    (store_proto_null s) (listeners s) (queue s) c (logged s)
    (client_state s) (depth s) (calls s).
Definition with_logged (n : nat) (s : orbital) :=
  Orbital (debug s) (console s) (heap s) (events s) (store s)
    (store_proto_null s) (listeners s) (queue s) (copies s) n
    (client_state s) (depth s) (calls s).
Definition with_client_state (c : client) (s : orbital) :=
  Orbital (debug s) (console s) (heap s) (events s) (store s)
    (store_proto_null s) (listeners s) (queue s) (copies s) (logged s)
    c (depth s) (calls s).
Definition with_depth (d : nat) (s : orbital) :=
  Orbital (debug s) (console s) (heap s) (events s) (store s)
    (store_proto_null s) (listeners s) (queue s) (copies s) (logged s)
    (client_state s) d (calls s).
Definition with_calls (c : list call) (s : orbital) :=
  Orbital (debug s) (console s) (heap s) (events s) (store s)
    (store_proto_null s) (listeners s) (queue s) (copies s) (logged s)
    (client_state s) (depth s) c.

(** The page as the script leaves it after loading, before any call. *)
Definition initial (c : client) : orbital :=
  Orbital false [] [] ∅ ∅ false ∅ [] [] 0 c 0 [].

(** ** Outcomes *)

Inductive outcome : Type :=
  | Done (s : orbital)
  | Threw (e : exn) (s : orbital)
  | OutOfFuel
  | Unmodelled.   (* [store]'s prototype replaced by a client object *)

Definition and_then (o : outcome) (k : orbital → outcome) : outcome :=
  match o with
  | Done s => k s
  | _ => o
  end.

(** ** Client code

    What a handler, a subscriber or any other client closure does, as far as
    the core can see it: calls of the core's functions, private
    computation, [throw] and [try]/[catch]. *)
Inductive prog : Type :=
  | Ret
  | EventsOn (event : string) (handler : hid) (k : prog)
  | EventsOff (event : string) (handler : hid) (k : prog)
  | EventsEmit (event : string) (data : value) (k : prog)
  | StateGet (key : string) (k : value → prog)
  | StateSet (key : string) (v : value) (k : prog)
  | StateSubscribe (key : string) (fn : hid) (k : prog)
  | AnalyticsLog (ty : string) (p : value) (k : prog)
  | Local (update : client → client) (k : client → prog)
  | Throw (e : value)
  | Try (body : prog) (catch : exn → prog) (k : prog).

(** The body of every function that is ever registered. *)
Variable handlers : hid → value → prog.

(** [Date.now()] and [location.pathname] as read by call [n] of
    analytics.log. *)
Variable Date_now : nat → Z.
Variable location_pathname : nat → string.

(** ** ORBITAL.utils.log *)

Definition utils_log (line : console_line) (s : orbital) : orbital :=
  if debug s then with_console (λ c, c ++ [line]) s else s.

(** ** Arrays of handlers *)

Definition array (a : loc) (s : orbital) : list hid := default [] (heap s !! a).

(** [[]]: a new empty array. *)
Definition alloc (l : list hid) (s : orbital) : loc * orbital :=
  (length (heap s), with_heap (heap s ++ [l]) s).

(** [a.push(h)] *)
Definition push (a : loc) (h : hid) (s : orbital) : orbital :=
  with_heap (alter (λ l, l ++ [h]) a (heap s)) s.

(** Entering and leaving a handler's frame. *)
Definition enter (h : hid) (arg : value) (s : orbital) : orbital :=
  with_depth (S (depth s)) (with_calls (calls s ++ [Call (depth s) h arg]) s).

Definition leave (d : nat) (o : outcome) : outcome :=
  match o with
  | Done s => Done (with_depth d s)
  | Threw e s => Threw e (with_depth d s)
  | _ => o
  end.

(** [h(arg)], with [run] the interpreter of client code. *)
Definition invoke (run : prog → orbital → outcome)
    (h : hid) (arg : value) (s : orbital) : outcome :=
  leave (depth s) (run (handlers h arg) (enter h arg s)).

(** [Array.prototype.forEach] on the array at [a]: [k] is the index, [n]
    the number of indices left of the length read when the walk began.
    Each element is read from the array as it is when its turn comes;
    an index the array does not have is skipped. *)
Fixpoint forEach (callback : hid → orbital → outcome)
    (a : loc) (k n : nat) (s : orbital) : outcome :=
  match n with
  | 0 => Done s
  | S n' =>
      match array a s !! k with
      | Some h => and_then (callback h s) (forEach callback a (S k) n')
      | None => forEach callback a (S k) n' s
      end
  end.

(** ** Event bus *)

Definition events_on (event : string) (handler : hid) (s : orbital) : outcome :=
  let s1 :=
    match prop_lookup (events s) event with
    | Absent =>
        let '(a, s') := alloc [] s in with_events (<[event := a]> (events s')) s'
    | _ => s
    end in
  match prop_lookup (events s1) event with
  | Own a => Done (push a handler s1)
  | _ => Threw TypeError s1
  end.

Definition events_off (event : string) (handler : hid) (s : orbital) : outcome :=
  match prop_lookup (events s) event with
  | Absent => Done s
  | Own a =>
      let '(a', s') := alloc (filter (λ h, h ≠ handler) (array a s)) s in
      Done (with_events (<[event := a']> (events s')) s')
  | Inherited => Threw TypeError s
  end.

Definition events_emit (run : prog → orbital → outcome)
    (event : string) (data : value) (s : orbital) : outcome :=
  let s1 := utils_log (LogEvent event data) s in
  match prop_lookup (events s1) event with
  | Absent => Done s1
  | Own a =>
      forEach (λ handler, invoke run handler data) a 0 (length (array a s1)) s1
  | Inherited => Threw TypeError s1
  end.

(** ** State store *)

Definition state_get (key : string) (s : orbital) : value :=
  match store s !! key with
  | Some v => v
  | None => if store_proto_null s then VUndefined else object_prototype_get key
  end.

(** The setter of the accessor [__proto__]: [null] and objects replace the
    prototype, anything else is ignored. *)
Definition proto_setter (v : value) (s : orbital) : option orbital :=
  match v with
  | VNull => Some (with_store_proto_null true s)
  | VObjectPrototype => Some s
  | VObject _ | VEmpty _ | VNative _ => None
  | _ => Some s
  end.

(** [store[key] = v] *)
Definition store_put (key : string) (v : value) (s : orbital) : option orbital :=
  match store s !! key with
  | Some _ => Some (with_store (<[key := v]> (store s)) s)
  | None =>
      if negb (store_proto_null s) && bool_decide (key = "__proto__")
      then proto_setter v s
      else Some (with_store (<[key := v]> (store s)) s)
  end.

Definition state_set (run : prog → orbital → outcome)
    (key : string) (v : value) (s : orbital) : outcome :=
  match store_put key v s with
  | None => Unmodelled
  | Some s1 =>
      let s2 := utils_log (LogState key v) s1 in
      match prop_lookup (listeners s2) key with
      | Absent => Done s2
      | Own a =>
          forEach (λ fn, invoke run fn v) a 0 (length (array a s2)) s2
      | Inherited => Threw TypeError s2
      end
  end.

Definition state_subscribe (key : string) (fn : hid) (s : orbital) : outcome :=
  let s1 :=
    match prop_lookup (listeners s) key with
    | Absent =>
        let '(a, s') := alloc [] s in
        with_listeners (<[key := a]> (listeners s')) s'
    | _ => s
    end in
  match prop_lookup (listeners s1) key with
  | Own a => Done (push a fn s1)
  | _ => Threw TypeError s1
  end.

(** ** Analytics queue *)

(** The object literal of analytics.log, as call [n] builds it; a payload
    that is [undefined] is replaced by a new [{}]. *)
Definition new_event (n : nat) (ty : string) (p : value) : event_record :=
  {| serial := n;
     type := ty;
     payload := match p with VUndefined => VEmpty n | _ => p end;
     timestamp := Date_now n;
     url := location_pathname n |}.

Definition analytics_log (ty : string) (p : value) (s : orbital) : orbital :=
  let n := logged s in
  let event := new_event n ty p in
  let q := queue s ++ [event] in
  let q := if bool_decide (MAX_QUEUE < length q) then tail q else q in
  utils_log (LogAnalytics event) (with_logged (S n) (with_queue q s)).

(** The arrays of records a caller can hold: address 0 is [queue] itself,
    [S i] the [i]-th array made by getQueue. *)
Definition record_array (r : loc) (s : orbital) : option (list event_record) :=
  match r with
  | 0 => Some (queue s)
  | S i => copies s !! i
  end.

(** [[...queue]] *)
Definition analytics_getQueue (s : orbital) : loc * orbital :=
  (S (length (copies s)), with_copies (copies s ++ [queue s]) s).

(** Any change a caller makes to the array at [r]: [f] maps the old
    contents to the new. *)
Definition mutate (r : loc) (f : list event_record → list event_record)
    (s : orbital) : orbital :=
  match r with
  | 0 => with_queue (f (queue s)) s
  | S i => with_copies (alter f i (copies s)) s
  end.

(** ** Running client code *)

Fixpoint exec (fuel : nat) (p : prog) (s : orbital) : outcome :=
  match fuel with
  | 0 => OutOfFuel
  | S f =>
      match p with
      | Ret => Done s
      | EventsOn event handler k => and_then (events_on event handler s) (exec f k)
      | EventsOff event handler k => and_then (events_off event handler s) (exec f k)
      | EventsEmit event data k => and_then (events_emit (exec f) event data s) (exec f k)
      | StateGet key k => exec f (k (state_get key s)) s
      | StateSet key v k => and_then (state_set (exec f) key v s) (exec f k)
      | StateSubscribe key fn k => and_then (state_subscribe key fn s) (exec f k)
      | AnalyticsLog ty p k => exec f k (analytics_log ty p s)
      | Local update k =>
          let c := update (client_state s) in
          exec f (k c) (with_client_state c s)
      | Throw e => Threw (Thrown e) s
      | Try body catch k =>
          match exec f body s with
          | Done s' => exec f k s'
          | Threw e s' => and_then (exec f (catch e) s') (exec f k)
          | o => o
          end
      end
  end.

(** ** Vocabulary of the statements *)

(** The handlers a dispatch pass called itself, in order: the calls logged
    between [s] and [s'] at the depth of [s].  Calls made by the handlers
    in turn are logged one level deeper. *)
Definition direct_calls (s s' : orbital) : list (hid * value) :=
  (λ c, (callee c, argument c)) <$>
    filter (λ c, call_depth c = depth s) (drop (length (calls s)) (calls s')).

(** The handler sequence of a topic, and the subscriber sequence of a key. *)
Definition registered (event : string) (s : orbital) : list hid :=
  match events s !! event with
  | Some a => array a s
  | None => []
  end.

Definition subscribed (key : string) (s : orbital) : list hid :=
  match listeners s !! key with
  | Some a => array a s
  | None => []
  end.

(** [h(arg)] returns normally, whatever the state it is called in. *)
Definition returns (fuel : nat) (h : hid) (arg : value) : Prop :=
  ∀ s, ∃ s', exec fuel (handlers h arg) s = Done s'.

(** [h(arg)] raises [e], whatever the state it is called in. *)
Definition raises (fuel : nat) (h : hid) (arg : value) (e : exn) : Prop :=
  ∀ s, ∃ s', exec fuel (handlers h arg) s = Threw e s'.

(** Registering the handlers [hs] for a topic, one call of [on] each. *)
Fixpoint register_all (event : string) (hs : list hid) (s : orbital) : outcome :=
  match hs with
  | [] => Done s
  | h :: hs' => and_then (events_on event h s) (register_all event hs')
  end.

(** A sequence of calls of analytics.log, each a type and a payload, and
    the records those calls build when the first of them is call [n]. *)
Definition log_all (cs : list (string * value)) (s : orbital) : orbital :=
  foldl (λ s c, analytics_log c.1 c.2 s) s cs.

Fixpoint built (n : nat) (cs : list (string * value)) : list event_record :=
  match cs with
  | [] => []
  | c :: cs' => new_event n c.1 c.2 :: built (S n) cs'
  end.

(** [s'] is a later state than [s] in the same frame: the stack is as deep,
    every array has only grown at its end, every key of [listeners] names
    the array it named, and the calls logged since are at the depth of [s]
    or deeper. *)
Record extends (s s' : orbital) : Prop := Extends {
  ext_depth : depth s' = depth s;
  ext_heap : ∀ a l, heap s !! a = Some l → ∃ l', heap s' !! a = Some (l ++ l');
  ext_listeners : ∀ k a, listeners s !! k = Some a → listeners s' !! k = Some a;
  ext_calls : ∃ new,
    calls s' = calls s ++ new ∧ Forall (λ c, depth s ≤ call_depth c) new
}.

Definition outcome_extends (s : orbital) (o : outcome) : Prop :=
  match o with
  | Done s' | Threw _ s' => extends s s'
  | _ => True
  end.

(** The [n] last elements of a sequence. *)
Definition most_recent {A} (n : nat) (l : list A) : list A :=
  drop (length l - n) l.

(** A state the page can be in: the own keys of the two handler registries
    are names that [Object.prototype] does not have, and they name arrays
    of the heap. *)
Definition well_formed (s : orbital) : Prop :=
  (∀ k a, events s !! k = Some a → inherited k = false ∧ a < length (heap s))
  ∧ (∀ k a, listeners s !! k = Some a →
       inherited k = false ∧ a < length (heap s)).

Definition holds_after (P : orbital → Prop) (o : outcome) : Prop :=
  match o with
  | Done s' | Threw _ s' => P s'
  | _ => True
  end.

(** A property of states that every step of the core keeps. *)
Record stable (P : orbital → Prop) : Prop := Stable {
  stable_on : ∀ event h s, P s → holds_after P (events_on event h s);
  stable_off : ∀ event h s, P s → holds_after P (events_off event h s);
  stable_subscribe : ∀ key fn s, P s → holds_after P (state_subscribe key fn s);
  stable_put : ∀ key v s s', P s → store_put key v s = Some s' → P s';
  stable_utils_log : ∀ line s, P s → P (utils_log line s);
  stable_analytics_log : ∀ ty p s, P s → P (analytics_log ty p s);
  stable_client : ∀ c s, P s → P (with_client_state c s);
  stable_enter : ∀ h arg s, P s → P (enter h arg s);
  stable_depth : ∀ d s, P s → P (with_depth d s)
}.

(** An interpreter of client code that only ever leads to later states. *)
Definition frame_safe (run : prog → orbital → outcome) : Prop :=
  ∀ p s, outcome_extends s (run p s).

End Orbital.

(** * A page for examples

    Handler 1 unregisters itself from topic ["x"]; handler 3 registers
    handler 4 for topic ["y"] when it is called with [5]; handler 5 throws;
    every other handler does nothing. *)

Definition demo_handlers (h : nat) (arg : value) : @prog nat unit :=
  match h with
  | 1 => EventsOff "x" 1 Ret
  | 3 => match arg with
         | VNum 5 => EventsOn "y" 4 Ret
         | _ => Ret
         end
  | 5 => Throw (VStr "boom")
  | _ => Ret
  end.

Definition quiet_handlers (h : nat) (arg : value) : @prog nat unit := Ret.

Definition demo_now (n : nat) : Z := (1000 * Z.of_nat n)%Z.

Definition demo_pathname (n : nat) : string := "/".

(** What the modules of the example do while the script loads. *)
Definition demo_setup : @prog nat unit :=
  EventsOn "x" 1 (EventsOn "x" 2
  (EventsOn "y" 3 (EventsOn "y" 2
  (EventsOn "z" 2 (EventsOn "z" 5 (EventsOn "z" 2
  (StateSubscribe "theme" 2 (StateSubscribe "theme" 5
  (StateSubscribe "theme" 2 Ret))))))))).

Definition demo_page : @orbital nat unit :=
  match exec demo_handlers demo_now demo_pathname 11 demo_setup (initial tt) with
  | Done s => s
  | _ => initial tt
  end.

(** One call of analytics.log with type ["t1"], then fifty with type
    ["t2"]; the [i]-th of these carries the payload [i]. *)
Definition demo_payloads : list value :=
  (λ i, VNum (Z.of_nat i)) <$> seq 1 50.

Definition demo_calls : list (string * value) :=
  ("t1", VNum 0) :: ((λ p, ("t2", p)) <$> demo_payloads).


(** Handler 7 sets the key ["theme"] when it is called; on this page it is
    registered last for topic ["x"]. *)
Definition nesting_handlers (h : nat) (arg : value) : @prog nat unit :=
  match h with
  | 7 => StateSet "theme" (VStr "dark") Ret
  | _ => Ret
  end.

Definition nesting_page : @orbital nat unit :=
  match
    exec nesting_handlers demo_now demo_pathname 2 (EventsOn "x" 7 Ret) demo_page
  with
  | Done s => s
  | _ => demo_page
  end.

(** Client code that subscribes, sets, publishes and logs. *)
Definition demo_client : @prog nat unit :=
  StateSubscribe "theme" 4
    (StateSet "theme" (VStr "dark")
      (EventsEmit "y" (VNum 5)
        (AnalyticsLog "click" (VNum 1) (AnalyticsLog "view" VUndefined Ret)))).

(** A page with handlers for the two topics of the modal engine; handler 5,
    which throws, is registered last for ["modal:close"]. *)
Definition modal_page : @orbital nat unit :=
  match
    exec demo_handlers demo_now demo_pathname 4
      (EventsOn "modal:open" 2
        (EventsOn "modal:close" 2 (EventsOn "modal:close" 5 Ret)))
      demo_page
  with
  | Done s => s
  | _ => demo_page
  end.

(** * Form utilities ([ORBITAL.utils.form], [validateField])

    A string of the page is a sequence of UTF-16 code units, here numbers
    of type [N]. *)

(** The code units that [\s] matches and that [String.prototype.trim]
    strips: the WhiteSpace and LineTerminator code points of ECMAScript. *)
Definition white_space : list N :=
  [ 9; 10; 11; 12; 13; 32; 160; 5760;
    8192; 8193; 8194; 8195; 8196; 8197; 8198; 8199; 8200; 8201; 8202;
    8232; 8233; 8239; 8287; 12288; 65279 ]%N.

Definition is_white_space (c : N) : bool := bool_decide (c ∈ white_space).

(** A regular expression of the shape the script uses, [/^ ... $/]: a
    sequence of character classes, each taken once or, with [+], one or
    more times. *)
Inductive atom : Type :=
  | Once (p : N → bool)
  | OneOrMore (p : N → bool).

(** [/^ r $/.test(s)]: a backtracking match of the whole of [s]; [+] is
    greedy, it tries the longer repetition first. *)
Fixpoint regexp_test (r : list atom) (s : list N) : bool :=
  match r with
  | [] => bool_decide (s = [])
  | Once p :: r' =>
      match s with
      | c :: s' => p c && regexp_test r' s'
      | [] => false
      end
  | OneOrMore p :: r' =>
      (fix more (s : list N) : bool :=
         match s with
         | c :: s' => p c && (more s' || regexp_test r' s')
         | [] => false
         end) s
  end.

(** The strings a pattern stands for. *)
Fixpoint language (r : list atom) (s : list N) : Prop :=
  match r with
  | [] => s = []
  | Once p :: r' => ∃ c s', s = c :: s' ∧ p c = true ∧ language r' s'
  | OneOrMore p :: r' =>
      ∃ a s', s = a ++ s' ∧ a ≠ [] ∧ Forall (λ c, p c = true) a
              ∧ language r' s'
  end.

(** [[^\s@]] *)
Definition not_space_at (c : N) : bool :=
  negb (is_white_space c) && negb (c =? 64)%N.

(** [/^[^\s@]+@[^\s@]+\.[^\s@]+$/]; 64 is ["@"], 46 is ["."]. *)
Definition email_pattern : list atom :=
  [ OneOrMore not_space_at; Once (N.eqb 64); OneOrMore not_space_at;
    Once (N.eqb 46); OneOrMore not_space_at ].

Definition isEmail (value : list N) : bool := regexp_test email_pattern value.

(** [String.prototype.trim]: the string without the white space at its
    start and at its end. *)
Fixpoint trimStart (s : list N) : list N :=
  match s with
  | c :: s' => if is_white_space c then trimStart s' else s
  | [] => []
  end.

Definition trim (s : list N) : list N :=
  reverse (trimStart (reverse (trimStart s))).

(** [!s] for a string: the empty string is the one falsy string. *)
Definition falsy (s : list N) : bool := bool_decide (s = []).

(** [!value || !value.trim()] *)
Definition isEmpty (value : list N) : bool :=
  falsy value || falsy (trim value).

(** What [validateField] computes from the value and the type of an input:
    the verdict it returns and the message it hands, with the verdict, to
    [setFieldState].  (The classes and texts that [setFieldState] then
    writes into the document are not part of this development.) *)
Definition validateField (value : list N) (type : string) : bool * string :=
  let valid := true in
  let message := "" in
  let '(valid, message) :=
    if isEmpty value then (false, "This field is required.")
    else (valid, message) in
  let '(valid, message) :=
    if bool_decide (type = "email") && negb (isEmail value)
    then (false, "Enter a valid email address.")
    else (valid, message) in
  (valid, message).

(** * Timing utilities ([ORBITAL.utils.timing])

    The closures that [debounce] and [throttle] return, with the timers
    they start.  A timer is known by the number [setTimeout] returned for
    it; the browser runs its callback at some later moment, once, unless
    [clearTimeout] came first.  How long that takes is not described here:
    the statements below hold whenever the callbacks run. *)

Section Timing.

Context {A : Type}.

(** What happens to a closure: the page calls it with [args] (and, for
    [throttle], [fn] returns or raises when it is applied), or the browser
    runs the callback of timer [id]. *)
Inductive timing_event : Type :=
  | Called (args : A) (fn_raises : bool)
  | TimedOut (id : nat).

(** [debounce(fn, delay)]: the variable [timer], the timers not yet run,
    each with the arguments its callback will apply [fn] to, and the
    applications of [fn] so far. *)
Record debounced : Type := Debounced {
  timer : option nat;
  debounce_next : nat;
  debounce_pending : list (nat * A);
  debounce_applied : list A
}.

Definition debounce : debounced := Debounced None 1 [] [].

(** [clearTimeout(timer); timer = setTimeout(() => fn.apply(this, args), delay)] *)
Definition debounced_call (args : A) (d : debounced) : debounced :=
  let cleared :=
    match timer d with
    | Some id => filter (λ t, t.1 ≠ id) (debounce_pending d)
    | None => debounce_pending d
    end in
  Debounced (Some (debounce_next d)) (S (debounce_next d))
    (cleared ++ [(debounce_next d, args)]) (debounce_applied d).

(** The callback of timer [id], if that timer is still to run. *)
Definition debounced_timeout (id : nat) (d : debounced) : debounced :=
  match list_find (λ t, t.1 = id) (debounce_pending d) with
  | Some (_, (_, args)) =>
      Debounced (timer d) (debounce_next d)
        (filter (λ t, t.1 ≠ id) (debounce_pending d))
        (debounce_applied d ++ [args])
  | None => d
  end.

Definition debounced_step (d : debounced) (e : timing_event) : debounced :=
  match e with
  | Called args _ => debounced_call args d
  | TimedOut id => debounced_timeout id d
  end.

(** [throttle(fn, limit)]: the variable [inThrottle], the timers not yet
    run, and the applications of [fn] so far. *)
Record throttled : Type := Throttled {
  inThrottle : bool;
  throttle_next : nat;
  throttle_pending : list nat;
  throttle_applied : list A
}.

Definition throttle : throttled := Throttled false 1 [] [].

(** [if (!inThrottle) { fn.apply(this, args); inThrottle = true;
    setTimeout(() => (inThrottle = false), limit); }]; the boolean says
    whether the call raised. *)
Definition throttled_call (args : A) (fn_raises : bool) (t : throttled)
    : bool * throttled :=
  if inThrottle t then (false, t)
  else if fn_raises then
    (true, Throttled false (throttle_next t) (throttle_pending t)
             (throttle_applied t ++ [args]))
  else
    (false, Throttled true (S (throttle_next t))
              (throttle_pending t ++ [throttle_next t])
              (throttle_applied t ++ [args])).

Definition throttled_timeout (id : nat) (t : throttled) : throttled :=
  if bool_decide (id ∈ throttle_pending t) then
    Throttled false (throttle_next t)
      (filter (λ i, i ≠ id) (throttle_pending t)) (throttle_applied t)
  else t.

Definition throttled_step (t : throttled) (e : timing_event) : throttled :=
  match e with
  | Called args fn_raises => (throttled_call args fn_raises t).2
  | TimedOut id => throttled_timeout id t
  end.

(** The states the closures can be in: at most one timer is still to run;
    for [debounce] it is the one [timer] names, for [throttle] there is
    one exactly when [inThrottle] is set. *)
Definition debounced_ok (d : debounced) : Prop :=
  Forall (λ t, t.1 < debounce_next d) (debounce_pending d)
  ∧ (debounce_pending d = []
     ∨ ∃ id args, debounce_pending d = [(id, args)] ∧ timer d = Some id).

Definition throttled_ok (t : throttled) : Prop :=
  Forall (λ i, i < throttle_next t) (throttle_pending t)
  ∧ (if inThrottle t then ∃ id, throttle_pending t = [id]
     else throttle_pending t = []).

End Timing.

(** * Modal engine ([ORBITAL.modules.modal])

    The variable [activeModal] of the module and the two classes it sets:
    ["is-open"] on modal elements and ["modal-open"] on the body.
    Elements are known by a number. *)

Record modal_state : Type := ModalState {
  activeModal : option nat;
  is_open : gset nat;
  body_modal_open : bool
}.

Section Modal.

Context {hid : Type} `{EqDecision hid} {client : Type}.
Variable handlers : hid → value → @prog hid client.

(** [open(modal)]; [None] is the [null] that [getElementById] answers for
    an unknown id.  The handlers of ["modal:open"] are client code of the
    core as before. *)
Definition modal_open (run : @prog hid client → @orbital hid client → @outcome hid client)
    (modal : option nat) (m : modal_state) (s : @orbital hid client)
    : modal_state * @outcome hid client :=
  match modal with
  | None => (m, Done s)
  | Some el =>
      (ModalState (Some el) ({[el]} ∪ is_open m) true,
       events_emit handlers run "modal:open" (VObject el) s)
  end.

(** [close()]: [activeModal] is reset only after the publish has
    returned. *)
Definition modal_close (run : @prog hid client → @orbital hid client → @outcome hid client)
    (m : modal_state) (s : @orbital hid client)
    : modal_state * @outcome hid client :=
  match activeModal m with
  | None => (m, Done s)
  | Some el =>
      let m1 := ModalState (Some el) (is_open m ∖ {[el]}) false in
      match events_emit handlers run "modal:close" (VObject el) s with
      | Done s' => (ModalState None (is_open m1) (body_modal_open m1), Done s')
      | o => (m1, o)
      end
  end.

End Modal.

(** * Properties *)

Section Properties.

Context {hid : Type} `{EqDecision hid} {client : Type}.
Variable handlers : hid → value → @prog hid client.
Variable Date_now : nat → Z.
Variable location_pathname : nat → string.

Abbreviation orbital := (@orbital hid client).
Abbreviation outcome := (@outcome hid client).
Abbreviation run := (exec handlers Date_now location_pathname).
Abbreviation emit fuel := (events_emit handlers (run fuel)).
Abbreviation set fuel := (state_set handlers (run fuel)).
Abbreviation log := (analytics_log Date_now location_pathname).

Implicit Types (s : orbital) (o : outcome) (h : hid) (a : loc).

(** ** Later states *)

Lemma extends_refl s : extends s s.
Proof.
  split; eauto.
  - intros a l Hl. exists []. by rewrite app_nil_r.
  - exists []. by rewrite app_nil_r.
Qed.

Lemma extends_trans s1 s2 s3 : extends s1 s2 → extends s2 s3 → extends s1 s3.
Proof.
  intros [Hd1 Hh1 Hl1 (n1 & Hc1 & Hn1)] [Hd2 Hh2 Hl2 (n2 & Hc2 & Hn2)].
  split.
  - congruence.
  - intros a l Hl. destruct (Hh1 _ _ Hl) as [l1 Hl1'].
    destruct (Hh2 _ _ Hl1') as [l2 Hl2']. exists (l1 ++ l2).
    by rewrite Hl2', <- app_assoc.
  - eauto.
  - exists (n1 ++ n2). split.
    + by rewrite Hc2, Hc1, <- app_assoc.
    + apply Forall_app. split; [done|]. by rewrite <- Hd1.
Qed.

(** A state that differs from [s] in neither the stack depth, the heap,
    [listeners] nor the call log is a later state. *)
Lemma extends_same s s' :
  depth s' = depth s → heap s' = heap s → listeners s' = listeners s →
  calls s' = calls s → extends s s'.
Proof.
  intros Hd Hh Hl Hc. split; [done| | |].
  - intros a l Ha. exists []. by rewrite Hh, app_nil_r.
  - intros k a. by rewrite Hl.
  - exists []. by rewrite Hc, app_nil_r.
Qed.

Lemma utils_log_extends line s : extends s (utils_log line s).
Proof. unfold utils_log. destruct (debug s); by apply extends_same. Qed.

Lemma push_extends a h s : extends s (push a h s).
Proof.
  split; simpl; [done| |done|].
  - intros a' l Hl. destruct (decide (a = a')) as [->|Hne].
    + exists [h]. by rewrite list_lookup_alter_eq, Hl.
    + exists []. by rewrite list_lookup_alter_ne, app_nil_r.
  - exists []. by rewrite app_nil_r.
Qed.

Lemma extends_alloc s s' more :
  depth s' = depth s → heap s' = heap s ++ more →
  listeners s' = listeners s → calls s' = calls s → extends s s'.
Proof.
  intros Hd Hh Hl Hc. split; [done| | |].
  - intros a l Ha. exists [].
    rewrite Hh, app_nil_r, lookup_app_l; [done|]. by eapply lookup_lt_Some.
  - intros k a. by rewrite Hl.
  - exists []. by rewrite Hc, app_nil_r.
Qed.

Lemma events_on_extends event h s : outcome_extends s (events_on event h s).
Proof.
  unfold events_on.
  destruct (prop_lookup (events s) event) eqn:Hs; simpl.
  - match goal with |- context [prop_lookup ?e event] =>
      destruct (prop_lookup e event) end; simpl.
    + by eapply extends_alloc.
    + eapply extends_trans; [|apply push_extends]. by eapply extends_alloc.
    + by eapply extends_alloc.
  - rewrite Hs. apply push_extends.
  - rewrite Hs. apply extends_refl.
Qed.

Lemma events_off_extends event h s : outcome_extends s (events_off event h s).
Proof.
  unfold events_off.
  destruct (prop_lookup (events s) event); simpl.
  - apply extends_refl.
  - by eapply extends_alloc.
  - apply extends_refl.
Qed.

Lemma extends_listeners_fresh s s' k a more :
  depth s' = depth s → heap s' = heap s ++ more →
  listeners s !! k = None → listeners s' = <[k := a]> (listeners s) →
  calls s' = calls s → extends s s'.
Proof.
  intros Hd Hh Hk Hl Hc. split; [done| | |].
  - intros a' l Ha. exists [].
    rewrite Hh, app_nil_r, lookup_app_l; [done|]. by eapply lookup_lt_Some.
  - intros k' a' Hk'. rewrite Hl, lookup_insert_ne; [done|]. congruence.
  - exists []. by rewrite Hc, app_nil_r.
Qed.

Lemma prop_lookup_absent (m : gmap string loc) k :
  prop_lookup m k = Absent → m !! k = None ∧ inherited k = false.
Proof.
  unfold prop_lookup. destruct (m !! k); [done|].
  by destruct (inherited k).
Qed.

Lemma prop_lookup_own (m : gmap string loc) k a :
  prop_lookup m k = Own a ↔ m !! k = Some a.
Proof.
  unfold prop_lookup. destruct (m !! k).
  - split; congruence.
  - destruct (inherited k); split; congruence.
Qed.

Lemma state_subscribe_extends key fn s :
  outcome_extends s (state_subscribe key fn s).
Proof.
  unfold state_subscribe.
  destruct (prop_lookup (listeners s) key) eqn:Hs; simpl.
  - apply prop_lookup_absent in Hs as [Hs _].
    match goal with |- context [prop_lookup ?e key] =>
      destruct (prop_lookup e key) end; simpl.
    + by eapply extends_listeners_fresh.
    + eapply extends_trans; [|apply push_extends].
      by eapply extends_listeners_fresh.
    + by eapply extends_listeners_fresh.
  - rewrite Hs. apply push_extends.
  - rewrite Hs. apply extends_refl.
Qed.

Lemma store_put_extends key v s s' : store_put key v s = Some s' → extends s s'.
Proof.
  unfold store_put, proto_setter. intros Hp.
  destruct (store s !! key);
    [|destruct (negb (store_proto_null s) && bool_decide (key = "__proto__"));
      [destruct v|]];
    simplify_eq; by apply extends_same.
Qed.

Lemma analytics_log_extends ty p s : extends s (log ty p s).
Proof.
  unfold analytics_log.
  eapply extends_trans; [|apply utils_log_extends]. by apply extends_same.
Qed.

(** ** Dispatch leads to later states *)

Lemma outcome_extends_later s s' o :
  extends s s' → outcome_extends s' o → outcome_extends s o.
Proof. intros Hs. destruct o; simpl; try done; by apply extends_trans. Qed.

Lemma outcome_extends_and_then s o (k : orbital → outcome) :
  outcome_extends s o →
  (∀ s', extends s s' → outcome_extends s' (k s')) →
  outcome_extends s (and_then o k).
Proof.
  intros Ho Hk. destruct o as [s'| | |]; simpl in *; try done.
  specialize (Hk s' Ho). destruct (k s'); simpl in *; try done;
    by eapply extends_trans.
Qed.

Lemma invoke_extends rn h arg s :
  frame_safe rn → outcome_extends s (invoke handlers rn h arg s).
Proof.
  intros Hrn. unfold invoke.
  specialize (Hrn (handlers h arg) (enter h arg s)).
  destruct (rn _ _) as [s'| e s'| |]; simpl in *; try done.
  all: destruct Hrn as [Hd Hh Hl (new & Hc & Hn)]; simpl in *.
  all: split; simpl; [done|done|done|].
  all: exists (Call (depth s) h arg :: new); split;
    [by rewrite Hc, <- app_assoc|].
  all: constructor; [done|].
  all: eapply Forall_impl; [done|]; simpl; lia.
Qed.

Lemma forEach_extends (cb : hid → orbital → outcome) a n :
  (∀ h s, outcome_extends s (cb h s)) →
  ∀ k s, outcome_extends s (forEach cb a k n s).
Proof.
  intros Hcb. induction n as [|n IH]; intros k s; simpl.
  - apply extends_refl.
  - destruct (array a s !! k) as [h|]; [|apply IH].
    apply outcome_extends_and_then; [apply Hcb|]. intros s' _. apply IH.
Qed.

Lemma events_emit_extends rn event data s :
  frame_safe rn → outcome_extends s (events_emit handlers rn event data s).
Proof.
  intros Hrn. unfold events_emit.
  pose proof (utils_log_extends (LogEvent event data) s) as Hlog.
  destruct (prop_lookup _ event); simpl; try done.
  eapply (outcome_extends_and_then s (Done _)); [exact Hlog|].
  intros s' _. apply forEach_extends. intros h s0. by apply invoke_extends.
Qed.

Lemma state_set_extends rn key v s :
  frame_safe rn → outcome_extends s (state_set handlers rn key v s).
Proof.
  intros Hrn. unfold state_set.
  destruct (store_put key v s) as [s1|] eqn:Hput; [|done].
  apply store_put_extends in Hput.
  pose proof (utils_log_extends (LogState key v) s1) as Hlog.
  assert (extends s (utils_log (LogState key v) s1)) as Hs2
    by (by eapply extends_trans).
  destruct (prop_lookup _ key); simpl; try done.
  eapply (outcome_extends_and_then s (Done _)); [exact Hs2|].
  intros s' _. apply forEach_extends. intros h s0. by apply invoke_extends.
Qed.

Theorem exec_extends fuel : frame_safe (run fuel).
Proof.
  induction fuel as [|f IH]; intros p s; [done|].
  destruct p; simpl.
  - apply extends_refl.
  - apply outcome_extends_and_then; [apply events_on_extends|]. intros; apply IH.
  - apply outcome_extends_and_then; [apply events_off_extends|]. intros; apply IH.
  - apply outcome_extends_and_then; [by apply events_emit_extends|].
    intros; apply IH.
  - apply IH.
  - apply outcome_extends_and_then; [by apply state_set_extends|].
    intros; apply IH.
  - apply outcome_extends_and_then; [apply state_subscribe_extends|].
    intros; apply IH.
  - eapply (outcome_extends_and_then s (Done _));
      [apply analytics_log_extends|]. intros; apply IH.
  - eapply (outcome_extends_and_then s (Done _)); [|intros; apply IH].
    by apply extends_same.
  - apply extends_refl.
  - pose proof (IH p1 s) as H1.
    destruct (run f p1 s) as [s'|e s'| |]; simpl in *; try done.
    + pose proof (IH p2 s') as H2.
      destruct (run f p2 s'); simpl in *; try done; by eapply extends_trans.
    + eapply outcome_extends_later; [exact H1|].
      apply outcome_extends_and_then; [apply IH|]. intros; apply IH.
Qed.

(** ** The calls a pass makes itself *)

Lemma direct_calls_frame s1 s2 s' :
  depth s2 = depth s1 → calls s2 = calls s1 →
  direct_calls s2 s' = direct_calls s1 s'.
Proof. intros Hd Hc. unfold direct_calls. by rewrite Hd, Hc. Qed.

Lemma direct_calls_none s s' :
  calls s' = calls s → direct_calls s s' = [].
Proof. intros Hc. unfold direct_calls. by rewrite Hc, drop_all. Qed.

Lemma direct_calls_app s s1 s2 :
  extends s s1 → extends s1 s2 →
  direct_calls s s2 = direct_calls s s1 ++ direct_calls s1 s2.
Proof.
  intros [Hd _ _ (n1 & Hc1 & _)] [_ _ _ (n2 & Hc2 & _)].
  unfold direct_calls.
  rewrite Hc2, drop_app_length, Hc1, drop_app_length, <- app_assoc.
  by rewrite drop_app_length, filter_app, fmap_app, Hd.
Qed.

Lemma filter_deeper (D : nat) (new : list (@call hid)) :
  Forall (λ c, S D ≤ call_depth c) new →
  filter (λ c, call_depth c = D) new = [].
Proof.
  induction 1 as [|c new Hc _ IH]; [done|].
  rewrite filter_cons_False; [done|]. lia.
Qed.

Lemma direct_calls_invoke rn h arg s :
  frame_safe rn →
  match invoke handlers rn h arg s with
  | Done s' | Threw _ s' => direct_calls s s' = [(h, arg)]
  | _ => True
  end.
Proof.
  intros Hrn. unfold invoke.
  specialize (Hrn (handlers h arg) (enter h arg s)).
  destruct (rn _ _) as [s'|e s'| |]; simpl in *; try done.
  all: destruct Hrn as [_ _ _ (new & Hc & Hn)]; simpl in *.
  all: unfold direct_calls; simpl.
  all: rewrite Hc, <- !app_assoc, drop_app_length; simpl.
  all: rewrite filter_cons_True by done.
  all: by rewrite filter_deeper.
Qed.

(** The walk of [forEach] over an array whose first elements are [hs],
    from index [k] to the end of [hs]: the callbacks it makes are the
    elements of [hs] from [k] on, whatever the handlers do to the
    registry meanwhile; if one of them raises, the walk stops there. *)
Lemma forEach_snapshot rn a arg hs n :
  frame_safe rn →
  ∀ k s more, heap s !! a = Some (hs ++ more) → k + n = length hs →
  match forEach (λ h, invoke handlers rn h arg) a k n s with
  | Done s' => direct_calls s s' = (., arg) <$> drop k hs
  | Threw _ s' =>
      ∃ j, j < n ∧ direct_calls s s' = (., arg) <$> take (S j) (drop k hs)
  | _ => True
  end.
Proof.
  intros Hrn. induction n as [|n IH]; intros k s more Ha Hk; simpl.
  - rewrite drop_ge by lia. by apply direct_calls_none.
  - assert (is_Some (hs !! k)) as [h Hh] by (apply lookup_lt_is_Some; lia).
    unfold array at 1. rewrite Ha. simpl.
    rewrite (lookup_app_l_Some _ _ _ _ Hh).
    rewrite (drop_S _ _ _ Hh).
    pose proof (invoke_extends rn h arg s Hrn) as Hext.
    pose proof (direct_calls_invoke rn h arg s Hrn) as Hdir.
    destruct (invoke handlers rn h arg s) as [s1|e s1| |]; simpl in *; try done.
    + destruct (ext_heap _ _ Hext _ _ Ha) as [l' Hl'].
      rewrite <- app_assoc in Hl'.
      specialize (IH (S k) s1 _ Hl' ltac:(lia)).
      pose proof (forEach_extends (λ h, invoke handlers rn h arg) a n
        (λ h s, invoke_extends rn h arg s Hrn) (S k) s1) as Hext'.
      destruct (forEach _ a (S k) n s1) as [s2|e s2| |]; simpl in *; try done.
      * rewrite (direct_calls_app s s1 s2) by done.
        by rewrite Hdir, IH.
      * destruct IH as (j & Hj & IH). exists (S j). split; [lia|].
        rewrite (direct_calls_app s s1 s2) by done.
        by rewrite Hdir, IH.
    + exists 0. split; [lia|]. by rewrite take_0.
Qed.

(** ** Publish and set walk a snapshot *)

Lemma utils_log_fields line s :
  heap (utils_log line s) = heap s ∧ events (utils_log line s) = events s
  ∧ listeners (utils_log line s) = listeners s
  ∧ store (utils_log line s) = store s
  ∧ store_proto_null (utils_log line s) = store_proto_null s
  ∧ depth (utils_log line s) = depth s ∧ calls (utils_log line s) = calls s
  ∧ queue (utils_log line s) = queue s ∧ copies (utils_log line s) = copies s
  ∧ logged (utils_log line s) = logged s.
Proof. unfold utils_log. by destruct (debug s). Qed.

Lemma store_put_fields key v s s1 :
  store_put key v s = Some s1 →
  heap s1 = heap s ∧ events s1 = events s ∧ listeners s1 = listeners s
  ∧ depth s1 = depth s ∧ calls s1 = calls s.
Proof.
  unfold store_put, proto_setter. intros Hp.
  destruct (store s !! key);
    [|destruct (negb (store_proto_null s) && bool_decide (key = "__proto__"));
      [destruct v|]];
    by simplify_eq.
Qed.

Lemma events_emit_snapshot rn event data s a hs :
  frame_safe rn → events s !! event = Some a → heap s !! a = Some hs →
  match events_emit handlers rn event data s with
  | Done s' => direct_calls s s' = (., data) <$> hs
  | Threw _ s' =>
      ∃ j, j < length hs ∧ direct_calls s s' = (., data) <$> take (S j) hs
  | _ => True
  end.
Proof.
  intros Hrn He Ha. unfold events_emit.
  destruct (utils_log_fields (LogEvent event data) s)
    as (Hh & Hev & _ & _ & _ & Hd & Hc & _).
  set (s1 := utils_log (LogEvent event data) s) in *.
  rewrite <- Hev in He. apply prop_lookup_own in He. rewrite He.
  unfold array. rewrite Hh, Ha. simpl.
  rewrite <- Hh in Ha. rewrite <- (app_nil_r hs) in Ha.
  pose proof (forEach_snapshot rn a data hs (length hs) Hrn 0 s1 [] Ha eq_refl)
    as Hsnap.
  destruct (forEach _ a 0 (length hs) s1) as [s'|e s'| |]; try done.
  - by rewrite <- (direct_calls_frame s s1 s').
  - by rewrite <- (direct_calls_frame s s1 s').
Qed.

Lemma state_set_snapshot rn key v s a fns :
  frame_safe rn → listeners s !! key = Some a → heap s !! a = Some fns →
  match state_set handlers rn key v s with
  | Done s' => direct_calls s s' = (., v) <$> fns
  | Threw _ s' =>
      ∃ j, j < length fns ∧ direct_calls s s' = (., v) <$> take (S j) fns
  | _ => True
  end.
Proof.
  intros Hrn Hl Ha. unfold state_set.
  destruct (store_put key v s) as [s1|] eqn:Hput; [|done].
  destruct (store_put_fields _ _ _ _ Hput) as (Hh1 & _ & Hl1 & Hd1 & Hc1).
  destruct (utils_log_fields (LogState key v) s1)
    as (Hh & _ & Hli & _ & _ & Hd & Hc & _).
  set (s2 := utils_log (LogState key v) s1) in *.
  rewrite <- Hl1, <- Hli in Hl. apply prop_lookup_own in Hl. rewrite Hl.
  unfold array. rewrite Hh, Hh1, Ha. simpl.
  rewrite <- Hh1, <- Hh in Ha. rewrite <- (app_nil_r fns) in Ha.
  pose proof (forEach_snapshot rn a v fns (length fns) Hrn 0 s2 [] Ha eq_refl)
    as Hsnap.
  assert (depth s2 = depth s) as Hd2 by congruence.
  assert (calls s2 = calls s) as Hc2 by congruence.
  destruct (forEach _ a 0 (length fns) s2) as [s'|e s'| |]; try done.
  - by rewrite <- (direct_calls_frame s s2 s').
  - by rewrite <- (direct_calls_frame s s2 s').
Qed.

(** If every handler of [hs] returns, so does the walk over [hs]. *)
Lemma forEach_returns fuel a arg hs n :
  (∀ h, h ∈ hs → returns handlers Date_now location_pathname fuel h arg) →
  ∀ k s more, heap s !! a = Some (hs ++ more) → k + n = length hs →
  ∃ s', forEach (λ h, invoke handlers (run fuel) h arg) a k n s = Done s'.
Proof.
  intros Hret. induction n as [|n IH]; intros k s more Ha Hk; simpl; [eauto|].
  assert (is_Some (hs !! k)) as [h Hh] by (apply lookup_lt_is_Some; lia).
  unfold array at 1. rewrite Ha. simpl.
  rewrite (lookup_app_l_Some _ _ _ _ Hh).
  pose proof (invoke_extends (run fuel) h arg s (exec_extends fuel)) as Hext.
  unfold invoke in *.
  destruct (Hret h (list_elem_of_lookup_2 _ _ _ Hh) (enter h arg s))
    as [s1 Hs1].
  rewrite Hs1 in *. simpl in *.
  destruct (ext_heap _ _ Hext _ _ Ha) as [l' Hl'].
  rewrite <- app_assoc in Hl'.
  apply (IH (S k) _ _ Hl'). lia.
Qed.

Lemma emit_returns fuel event data s a hs :
  events s !! event = Some a → heap s !! a = Some hs →
  (∀ h, h ∈ hs → returns handlers Date_now location_pathname fuel h data) →
  ∃ s', emit fuel event data s = Done s'
        ∧ direct_calls s s' = (., data) <$> hs.
Proof.
  intros He Ha Hret.
  pose proof (events_emit_snapshot (run fuel) event data s a hs
    (exec_extends fuel) He Ha) as Hsnap.
  unfold events_emit in *.
  destruct (utils_log_fields (LogEvent event data) s)
    as (Hh & Hev & _).
  set (s1 := utils_log (LogEvent event data) s) in *.
  rewrite <- Hev in He. apply prop_lookup_own in He. rewrite He in *.
  unfold array in *. rewrite Hh, Ha in *. simpl in *.
  rewrite <- Hh in Ha. rewrite <- (app_nil_r hs) in Ha.
  destruct (forEach_returns fuel a data hs (length hs) Hret 0 s1 [] Ha eq_refl)
    as [s' Hs']. rewrite Hs' in *. eauto.
Qed.

Lemma store_put_ordinary key v s :
  key ≠ "__proto__" →
  store_put key v s = Some (with_store (<[key := v]> (store s)) s).
Proof.
  intros Hk. unfold store_put.
  rewrite (bool_decide_eq_false_2 _ Hk), andb_false_r.
  by destruct (store s !! key).
Qed.

Lemma inherited_proto key : inherited key = false → key ≠ "__proto__".
Proof. intros Hi ->. done. Qed.

Lemma set_returns fuel key v s a fns :
  listeners s !! key = Some a → heap s !! a = Some fns →
  is_Some (store_put key v s) →
  (∀ h, h ∈ fns → returns handlers Date_now location_pathname fuel h v) →
  ∃ s', set fuel key v s = Done s' ∧ direct_calls s s' = (., v) <$> fns.
Proof.
  intros Hl Ha [s1 Hput] Hret.
  pose proof (state_set_snapshot (run fuel) key v s a fns
    (exec_extends fuel) Hl Ha) as Hsnap.
  unfold state_set in *. rewrite Hput in *.
  destruct (store_put_fields _ _ _ _ Hput) as (Hh1 & _ & Hl1 & _).
  destruct (utils_log_fields (LogState key v) s1) as (Hh & _ & Hli & _).
  set (s2 := utils_log (LogState key v) s1) in *.
  rewrite <- Hl1, <- Hli in Hl. apply prop_lookup_own in Hl. rewrite Hl in *.
  assert (heap s2 = heap s) as Hh2 by congruence.
  unfold array in *. rewrite Hh2, Ha in *. simpl in *.
  rewrite <- Hh2 in Ha. rewrite <- (app_nil_r fns) in Ha.
  destruct (forEach_returns fuel a v fns (length fns) Hret 0 s2 [] Ha eq_refl)
    as [s' Hs']. rewrite Hs' in *. eauto.
Qed.

(** ** Handlers with a given body *)

Lemma returns_Ret fuel h arg :
  handlers h arg = Ret →
  returns handlers Date_now location_pathname (S fuel) h arg.
Proof. intros Hb s. rewrite Hb. by eexists. Qed.

Lemma returns_EventsOff fuel h arg event h' :
  inherited event = false → handlers h arg = EventsOff event h' Ret →
  returns handlers Date_now location_pathname (S (S fuel)) h arg.
Proof.
  intros Hi Hb s. rewrite Hb. simpl. unfold events_off, prop_lookup.
  destruct (events s !! event); [by eexists|]. rewrite Hi. by eexists.
Qed.

Lemma invoke_Ret fuel h arg s :
  handlers h arg = Ret →
  invoke handlers (run (S fuel)) h arg s
  = Done (with_calls (calls s ++ [Call (depth s) h arg]) s).
Proof. intros Hb. unfold invoke. by rewrite Hb. Qed.


Lemma invoke_EventsOff fuel h arg event h' a s :
  handlers h arg = EventsOff event h' Ret → events s !! event = Some a →
  invoke handlers (run (S (S fuel))) h arg s
  = Done (with_events (<[event := length (heap s)]> (events s))
           (with_heap (heap s ++ [filter (λ x, x ≠ h') (array a s)])
             (with_calls (calls s ++ [Call (depth s) h arg]) s))).
Proof.
  intros Hb He. unfold invoke. rewrite Hb. simpl.
  unfold events_off. simpl. by rewrite (proj2 (prop_lookup_own _ _ _) He).
Qed.

Lemma forEach_step (cb : hid → orbital → outcome) a k n s h :
  array a s !! k = Some h →
  forEach cb a k (S n) s = and_then (cb h s) (forEach cb a (S k) n).
Proof. intros Hk. simpl. by rewrite Hk. Qed.

Lemma events_emit_own rn event data s a :
  events s !! event = Some a →
  events_emit handlers rn event data s
  = forEach (λ h, invoke handlers rn h data) a 0 (length (array a s))
      (utils_log (LogEvent event data) s).
Proof.
  intros He. unfold events_emit.
  destruct (utils_log_fields (LogEvent event data) s) as (Hh & Hev & _).
  rewrite <- Hev in He. rewrite (proj2 (prop_lookup_own _ _ _) He).
  unfold array. by rewrite Hh.
Qed.

Lemma array_heap a s l : heap s !! a = Some l → array a s = l.
Proof. intros Ha. unfold array. by rewrite Ha. Qed.

Lemma array_utils_log a line s : array a (utils_log line s) = array a s.
Proof.
  unfold array. by destruct (utils_log_fields line s) as (-> & _).
Qed.


Lemma invoke_EventsOn fuel h arg event h' a s :
  handlers h arg = EventsOn event h' Ret → events s !! event = Some a →
  invoke handlers (run (S (S fuel))) h arg s
  = Done (with_heap (alter (λ l, l ++ [h']) a (heap s))
           (with_calls (calls s ++ [Call (depth s) h arg]) s)).
Proof.
  intros Hb He. unfold invoke. rewrite Hb. simpl.
  unfold events_on. change (events (enter h arg s)) with (events s).
  rewrite (proj2 (prop_lookup_own _ _ _) He). cbv zeta.
  change (events (enter h arg s)) with (events s).
  by rewrite (proj2 (prop_lookup_own _ _ _) He).
Qed.

Lemma forEach_app (cb : hid → orbital → outcome) a n m :
  ∀ k s,
    forEach cb a k (n + m) s
    = and_then (forEach cb a k n s) (forEach cb a (k + n) m).
Proof.
  induction n as [|n IH]; intros k s; simpl.
  - by rewrite Nat.add_0_r.
  - replace (k + S n) with (S k + n) by lia.
    destruct (array a s !! k) as [h|]; [|apply IH].
    destruct (cb h s); simpl; [apply IH|done..].
Qed.

(** A walk over handlers that do nothing changes neither the heap nor the
    event registry. *)
Lemma forEach_Ret fuel a arg arr n :
  ∀ k s,
    heap s !! a = Some arr → k + n ≤ length arr →
    (∀ h, h ∈ take n (drop k arr) → handlers h arg = Ret) →
    ∃ s', forEach (λ h, invoke handlers (run (S fuel)) h arg) a k n s = Done s'
          ∧ heap s' = heap s ∧ events s' = events s
          ∧ listeners s' = listeners s ∧ store s' = store s
          ∧ store_proto_null s' = store_proto_null s.
Proof.
  induction n as [|n IH]; intros k s Ha Hk Hret; [simpl; by eauto 10|].
  assert (is_Some (arr !! k)) as [h Hh] by (apply lookup_lt_is_Some; lia).
  rewrite (forEach_step _ a k n s h) by (unfold array; by rewrite Ha).
  rewrite (drop_S _ _ _ Hh) in Hret. simpl in Hret.
  rewrite invoke_Ret by (apply Hret; left). cbn [and_then].
  assert (∀ h', h' ∈ take n (drop (S k) arr) → handlers h' arg = Ret)
    as Hret' by (intros h' Hin; apply Hret; by right).
  destruct (IH (S k) (with_calls (calls s ++ [Call (depth s) h arg]) s)
    Ha ltac:(lia) Hret') as (s' & Hs' & Hh' & He' & Hl' & Hst' & Hn').
  by eauto 10.
Qed.

Lemma filter_ne_absent (h : hid) (l : list hid) :
  h ∉ l → filter (λ x, x ≠ h) l = l.
Proof.
  induction l as [|x l IH]; [done|]. intros Hnin.
  apply not_elem_of_cons in Hnin as [Hne Hnin].
  rewrite filter_cons_True by done. by rewrite IH.
Qed.

(** The state a pass leaves when one handler, [h1], acts on the registry
    and the others do nothing: the registry is as [h1] left it. *)
Lemma emit_one_actor fuel event a pre h1 post data s sB :
  events s !! event = Some a → heap s !! a = Some (pre ++ h1 :: post) →
  (∀ h, h ∈ pre ++ post → handlers h data = Ret) →
  (∀ sA, heap sA = heap s → events sA = events s →
     ∃ more,
       invoke handlers (run (S (S fuel))) h1 data sA = Done (sB sA)
       ∧ heap (sB sA) !! a = Some ((pre ++ h1 :: post) ++ more)) →
  ∃ sA s1,
    heap sA = heap s ∧ events sA = events s
    ∧ emit (S (S fuel)) event data s = Done s1
    ∧ heap s1 = heap (sB sA) ∧ events s1 = events (sB sA)
    ∧ direct_calls s s1 = (., data) <$> (pre ++ h1 :: post).
Proof.
  intros He Ha Hret Hact.
  pose proof (events_emit_snapshot (run (S (S fuel))) event data s a _
    (exec_extends _) He Ha) as Hsnap.
  destruct (utils_log_fields (LogEvent event data) s) as (Hh & Hev & _).
  assert (heap (utils_log (LogEvent event data) s) !! a
          = Some (pre ++ h1 :: post)) as Ha0 by (by rewrite Hh).
  assert (0 + length pre ≤ length (pre ++ h1 :: post)) as Hlen0
    by (rewrite length_app; simpl; lia).
  assert (∀ h, h ∈ take (length pre) (drop 0 (pre ++ h1 :: post)) →
            handlers h data = Ret) as Hret0.
  { intros h Hin. apply Hret. rewrite drop_0, take_app_length in Hin.
    apply elem_of_app. by left. }
  destruct (forEach_Ret (S fuel) a data _ _ 0 _ Ha0 Hlen0 Hret0)
    as (sA & HsA & HhA & HeA & _).
  assert (array a sA !! length pre = Some h1) as Hk.
  { rewrite (array_heap a sA (pre ++ h1 :: post)) by congruence.
    by rewrite list_lookup_middle. }
  destruct (Hact sA) as (more & Hinv & HaB); [congruence..|].
  assert (S (length pre) + length post
          ≤ length ((pre ++ h1 :: post) ++ more)) as HlenB
    by (rewrite !length_app; simpl; lia).
  assert (∀ h, h ∈ take (length post)
                 (drop (S (length pre)) ((pre ++ h1 :: post) ++ more)) →
            handlers h data = Ret) as HretB.
  { intros h Hin. apply Hret. apply elem_of_app. right.
    rewrite <- app_assoc in Hin.
    change (pre ++ (h1 :: post) ++ more)
      with (pre ++ [h1] ++ post ++ more) in Hin.
    rewrite (app_assoc pre [h1]) in Hin.
    rewrite drop_app_length' in Hin by (rewrite length_app; simpl; lia).
    by rewrite take_app_length in Hin. }
  destruct (forEach_Ret (S fuel) a data _ _ _ (sB sA) HaB HlenB HretB)
    as (s1 & Hs1 & Hh1 & He1 & _).
  assert (emit (S (S fuel)) event data s = Done s1) as Hrun.
  { rewrite (events_emit_own _ _ _ _ _ He), (array_heap _ _ _ Ha).
    rewrite length_app. simpl length.
    rewrite forEach_app, HsA. cbn [and_then]. rewrite Nat.add_0_l.
    rewrite (forEach_step _ a (length pre) (length post) sA h1 Hk).
    rewrite Hinv. cbn [and_then]. exact Hs1. }
  rewrite Hrun in Hsnap.
  exists sA, s1. repeat split; try done; congruence.
Qed.

Lemma self_unregister_scenario fuel event a pre h1 post data data' s :
  events s !! event = Some a → heap s !! a = Some (pre ++ h1 :: post) →
  (∀ h, h ∈ pre ++ post → handlers h data = Ret) →
  handlers h1 data = EventsOff event h1 Ret →
  (∀ h, h ∈ pre ++ post →
     returns handlers Date_now location_pathname (S (S fuel)) h data') →
  ∃ s1 s2,
    emit (S (S fuel)) event data s = Done s1
    ∧ direct_calls s s1 = (., data) <$> (pre ++ h1 :: post)
    ∧ registered event s1 = pre ++ post
    ∧ emit (S (S fuel)) event data' s1 = Done s2
    ∧ direct_calls s1 s2 = (., data') <$> (pre ++ post).
Proof.
  intros He Ha Hret Hb1 Hret'.
  assert (h1 ∉ pre ++ post) as Hnin.
  { intros Hin. specialize (Hret _ Hin). congruence. }
  apply not_elem_of_app in Hnin as [Hpre Hpost].
  destruct (emit_one_actor fuel event a pre h1 post data s
    (λ sA, with_events (<[event := length (heap sA)]> (events sA))
             (with_heap
                (heap sA ++ [filter (λ x, x ≠ h1) (array a sA)])
                (with_calls (calls sA ++ [Call (depth sA) h1 data]) sA)))
    He Ha Hret) as (sA & s1 & HhA & HeA & Hrun & Hh1 & He1 & Hdir).
  { intros sA HhA HeA. exists []. split.
    - apply invoke_EventsOff; [done|congruence].
    - simpl. rewrite app_nil_r, lookup_app_l; [congruence|].
      rewrite HhA. by eapply lookup_lt_Some. }
  simpl in Hh1, He1.
  assert (events s1 !! event = Some (length (heap sA))) as He2
    by (rewrite He1; apply lookup_insert_eq).
  assert (heap s1 !! length (heap sA) = Some (pre ++ post)) as Ha2.
  { rewrite Hh1, list_lookup_middle by done. f_equal.
    rewrite (array_heap a sA (pre ++ h1 :: post)) by congruence.
    rewrite filter_app, filter_cons_False by (intros Hx; by apply Hx).
    by rewrite !filter_ne_absent. }
  destruct (emit_returns (S (S fuel)) event data' s1 _ _ He2 Ha2 Hret')
    as (s2 & Hs2 & Hdir2).
  exists s1, s2. repeat split; try done.
  unfold registered. by rewrite He2, (array_heap _ _ _ Ha2).
Qed.

Lemma register_during_dispatch_scenario
    fuel event a pre h1 post h3 data data' s :
  events s !! event = Some a → heap s !! a = Some (pre ++ h1 :: post) →
  (∀ h, h ∈ pre ++ post → handlers h data = Ret) →
  handlers h1 data = EventsOn event h3 Ret →
  (∀ h, h ∈ (pre ++ h1 :: post) ++ [h3] →
     returns handlers Date_now location_pathname (S (S fuel)) h data') →
  ∃ s1 s2,
    emit (S (S fuel)) event data s = Done s1
    ∧ direct_calls s s1 = (., data) <$> (pre ++ h1 :: post)
    ∧ registered event s1 = (pre ++ h1 :: post) ++ [h3]
    ∧ emit (S (S fuel)) event data' s1 = Done s2
    ∧ direct_calls s1 s2 = (., data') <$> ((pre ++ h1 :: post) ++ [h3]).
Proof.
  intros He Ha Hret Hb1 Hret'.
  destruct (emit_one_actor fuel event a pre h1 post data s
    (λ sA, with_heap (alter (λ l, l ++ [h3]) a (heap sA))
             (with_calls (calls sA ++ [Call (depth sA) h1 data]) sA))
    He Ha Hret) as (sA & s1 & HhA & HeA & Hrun & Hh1 & He1 & Hdir).
  { intros sA HhA HeA. exists [h3]. split.
    - apply (invoke_EventsOn fuel h1 data event h3 a sA); [done|congruence].
    - simpl. by rewrite list_lookup_alter_eq, HhA, Ha. }
  simpl in Hh1, He1.
  assert (events s1 !! event = Some a) as He2 by congruence.
  assert (heap s1 !! a = Some ((pre ++ h1 :: post) ++ [h3])) as Ha2
    by (by rewrite Hh1, list_lookup_alter_eq, HhA, Ha).
  destruct (emit_returns (S (S fuel)) event data' s1 _ _ He2 Ha2 Hret')
    as (s2 & Hs2 & Hdir2).
  exists s1, s2. repeat split; try done.
  unfold registered. by rewrite He2, (array_heap _ _ _ Ha2).
Qed.

(** C1 — Snapshot dispatch of the event bus.  A publish on a topic calls
    the handlers that were registered when it began, each once, in order,
    whatever they do to the registry meanwhile.  In particular, when one
    handler [h1] unregisters itself during the pass, the handlers after it
    still run in that pass and only the next publish leaves [h1] out; when
    [h1] registers a new handler [h3] during the pass, [h3] is not called
    in that pass and the next publish calls it last. *)
Theorem emit_snapshot_dispatch fuel event a hs data s :
  events s !! event = Some a → heap s !! a = Some hs →
  ((∀ h, h ∈ hs →
      returns handlers Date_now location_pathname (S (S fuel)) h data) →
   ∃ s', emit (S (S fuel)) event data s = Done s'
         ∧ direct_calls s s' = (., data) <$> hs)
  ∧ (∀ pre h1 post data',
       hs = pre ++ h1 :: post →
       (∀ h, h ∈ pre ++ post → handlers h data = Ret) →
       handlers h1 data = EventsOff event h1 Ret →
       (∀ h, h ∈ pre ++ post →
          returns handlers Date_now location_pathname (S (S fuel)) h data') →
       ∃ s1 s2,
         emit (S (S fuel)) event data s = Done s1
         ∧ direct_calls s s1 = (., data) <$> hs
         ∧ registered event s1 = pre ++ post
         ∧ emit (S (S fuel)) event data' s1 = Done s2
         ∧ direct_calls s1 s2 = (., data') <$> (pre ++ post))
  ∧ (∀ pre h1 post h3 data',
       hs = pre ++ h1 :: post →
       (∀ h, h ∈ pre ++ post → handlers h data = Ret) →
       handlers h1 data = EventsOn event h3 Ret →
       (∀ h, h ∈ hs ++ [h3] →
          returns handlers Date_now location_pathname (S (S fuel)) h data') →
       ∃ s1 s2,
         emit (S (S fuel)) event data s = Done s1
         ∧ direct_calls s s1 = (., data) <$> hs
         ∧ registered event s1 = hs ++ [h3]
         ∧ emit (S (S fuel)) event data' s1 = Done s2
         ∧ direct_calls s1 s2 = (., data') <$> (hs ++ [h3])).
Proof.
  intros He Ha. split; [|split].
  - intros Hret. by eapply emit_returns.
  - intros pre h1 post data' -> Hret Hb Hret'.
    by eapply self_unregister_scenario.
  - intros pre h1 post h3 data' -> Hret Hb Hret'.
    by eapply register_during_dispatch_scenario.
Qed.

(** ** Registration *)

Lemma events_on_fresh event h s :
  events s !! event = None → inherited event = false →
  ∃ s', events_on event h s = Done s'
        ∧ events s' !! event = Some (length (heap s))
        ∧ heap s' !! length (heap s) = Some [h].
Proof.
  intros He Hi.
  assert (prop_lookup (events s) event = Absent) as Hp
    by (unfold prop_lookup; by rewrite He, Hi).
  unfold events_on. rewrite Hp. simpl.
  unfold prop_lookup. simpl. rewrite lookup_insert_eq.
  eexists. split; [done|]. split; simpl.
  - apply lookup_insert_eq.
  - rewrite list_lookup_alter_eq. by rewrite list_lookup_middle.
Qed.

Lemma events_on_registered event h s a l :
  events s !! event = Some a → heap s !! a = Some l →
  ∃ s', events_on event h s = Done s'
        ∧ events s' !! event = Some a ∧ heap s' !! a = Some (l ++ [h]).
Proof.
  intros He Ha. unfold events_on.
  rewrite (proj2 (prop_lookup_own _ _ _) He). cbv zeta.
  rewrite (proj2 (prop_lookup_own _ _ _) He).
  eexists. split; [done|]. split; [done|]. simpl.
  by rewrite list_lookup_alter_eq, Ha.
Qed.

Lemma register_all_registered event hs :
  ∀ s a l, events s !! event = Some a → heap s !! a = Some l →
  ∃ s', register_all event hs s = Done s'
        ∧ events s' !! event = Some a ∧ heap s' !! a = Some (l ++ hs).
Proof.
  induction hs as [|h hs IH]; intros s a l He Ha; simpl.
  - exists s. by rewrite app_nil_r.
  - destruct (events_on_registered event h s a l He Ha)
      as (s1 & -> & He1 & Ha1). simpl.
    destruct (IH s1 a _ He1 Ha1) as (s' & Hs' & He' & Ha').
    exists s'. by rewrite <- app_assoc in Ha'.
Qed.

Lemma events_emit_absent rn event data s :
  events s !! event = None → inherited event = false →
  events_emit handlers rn event data s
  = Done (utils_log (LogEvent event data) s).
Proof.
  intros He Hi. unfold events_emit, prop_lookup.
  destruct (utils_log_fields (LogEvent event data) s) as (_ & -> & _).
  by rewrite He, Hi.
Qed.

(** Handlers registered for a new topic, under a name that
    [Object.prototype] does not have, are called by the next publish once
    each, in registration order, with the published value; with no handler
    registered the publish does nothing. *)
Lemma publish_in_registration_order fuel event hs data s :
  inherited event = false → events s !! event = None →
  (∀ h, h ∈ hs → returns handlers Date_now location_pathname fuel h data) →
  ∃ s1 s2,
    register_all event hs s = Done s1
    ∧ emit fuel event data s1 = Done s2
    ∧ direct_calls s1 s2 = (., data) <$> hs
    ∧ (hs = [] → s2 = utils_log (LogEvent event data) s).
Proof.
  intros Hi He Hret. destruct hs as [|h hs].
  - exists s, (utils_log (LogEvent event data) s). simpl.
    rewrite events_emit_absent by done. repeat split.
    destruct (utils_log_fields (LogEvent event data) s)
      as (_ & _ & _ & _ & _ & _ & Hc & _).
    by apply direct_calls_none.
  - simpl. destruct (events_on_fresh event h s He Hi) as (s0 & -> & He0 & Ha0).
    simpl.
    destruct (register_all_registered event hs s0 _ _ He0 Ha0)
      as (s1 & Hs1 & He1 & Ha1).
    destruct (emit_returns fuel event data s1 _ _ He1 Ha1 Hret)
      as (s2 & Hs2 & Hdir).
    by exists s1, s2.
Qed.

(** On every page the script can reach, the three functions of the event
    bus raise a [TypeError] for a topic named like a member of
    [Object.prototype], and so does [subscribe] for such a key. *)
Lemma inherited_name_raises name h rn data s :
  well_formed s → inherited name = true →
  events_emit handlers rn name data s
  = Threw TypeError (utils_log (LogEvent name data) s)
  ∧ events_on name h s = Threw TypeError s
  ∧ events_off name h s = Threw TypeError s
  ∧ state_subscribe name h s = Threw TypeError s.
Proof.
  intros [Hev Hli] Hi.
  assert (events s !! name = None) as He.
  { destruct (events s !! name) as [a|] eqn:He; [|done].
    destruct (Hev _ _ He). congruence. }
  assert (listeners s !! name = None) as Hl.
  { destruct (listeners s !! name) as [a|] eqn:Hl; [|done].
    destruct (Hli _ _ Hl). congruence. }
  assert (prop_lookup (events s) name = Inherited) as Hp
    by (unfold prop_lookup; by rewrite He, Hi).
  assert (prop_lookup (listeners s) name = Inherited) as Hq
    by (unfold prop_lookup; by rewrite Hl, Hi).
  repeat split.
  - unfold events_emit.
    destruct (utils_log_fields (LogEvent name data) s) as (_ & -> & _).
    by rewrite Hp.
  - unfold events_on. by rewrite Hp, Hp.
  - unfold events_off. by rewrite Hp.
  - unfold state_subscribe. by rewrite Hq, Hq.
Qed.

(** C3 — A publish, and a registration, on a topic named like a member of
    [Object.prototype]: [events["constructor"]] is the inherited function
    [Object], which is truthy and has neither [push] nor [forEach], so both
    calls raise a [TypeError] where the specification promises a
    registration that succeeds and a publish that silently does nothing. *)
Theorem emit_unknown_topic_constructor rn h data (c : client) :
  events_emit handlers rn "constructor" data (initial c)
  = Threw TypeError (initial c)
  ∧ events_on "constructor" h (initial c) = Threw TypeError (initial c).
Proof. split; reflexivity. Qed.

(** ** Unregistration *)

Lemma events_off_registered event h s a :
  events s !! event = Some a →
  ∃ s', events_off event h s = Done s'
        ∧ registered event s' = filter (λ x, x ≠ h) (registered event s)
        ∧ (∀ a' l, heap s !! a' = Some l → heap s' !! a' = Some l)
        ∧ (∀ event', event' ≠ event → events s' !! event' = events s !! event').
Proof.
  intros He. unfold events_off.
  rewrite (proj2 (prop_lookup_own _ _ _) He). simpl.
  eexists. split; [done|]. split; [|split].
  - unfold registered. simpl. rewrite lookup_insert_eq, He.
    unfold array at 1. simpl. by rewrite list_lookup_middle.
  - intros a' l Ha'. simpl. rewrite lookup_app_l; [done|].
    by eapply lookup_lt_Some.
  - intros event' Hne. simpl. by rewrite lookup_insert_ne.
Qed.

Lemma events_off_absent event h s :
  events s !! event = None → inherited event = false →
  events_off event h s = Done s.
Proof.
  intros He Hi. unfold events_off, prop_lookup. by rewrite He, Hi.
Qed.

(** After [off(event, h)] on a topic with handlers, no occurrence of [h] is
    left, the other handlers keep their order, and the next publish calls
    exactly those; a handler that was not registered leaves the sequence
    as it was. *)
Lemma unregister_then_publish fuel event h data s a :
  events s !! event = Some a →
  ∃ s1,
    events_off event h s = Done s1
    ∧ registered event s1 = filter (λ x, x ≠ h) (registered event s)
    ∧ (h ∉ registered event s1)
    ∧ (h ∉ registered event s → registered event s1 = registered event s)
    ∧ ((∀ h', h' ∈ registered event s1 →
          returns handlers Date_now location_pathname fuel h' data) →
       ∃ s2, emit fuel event data s1 = Done s2
             ∧ direct_calls s1 s2 = ((., data) <$> registered event s1)
             ∧ (h, data) ∉ direct_calls s1 s2).
Proof.
  intros He.
  destruct (events_off_registered event h s a He) as (s1 & Hs1 & Hreg & _).
  exists s1. split; [done|]. split; [done|].
  assert (h ∉ registered event s1) as Hnin.
  { rewrite Hreg. intros [Hx _]%list_elem_of_filter. by apply Hx. }
  split; [done|]. split.
  - intros Hn. rewrite Hreg. by apply filter_ne_absent.
  - intros Hret. unfold events_off in Hs1.
    rewrite (proj2 (prop_lookup_own _ _ _) He) in Hs1. simpl in Hs1.
    injection Hs1 as <-.
    match goal with |- context [emit fuel event data ?st] => set (s1 := st) in * end.
    assert (events s1 !! event = Some (length (heap s))) as He1
      by apply lookup_insert_eq.
    assert (heap s1 !! length (heap s)
            = Some (filter (λ x, x ≠ h) (array a s))) as Ha1
      by (by apply list_lookup_middle).
    assert (registered event s1 = filter (λ x, x ≠ h) (array a s)) as Hr1
      by (unfold registered; by rewrite He1, (array_heap _ _ _ Ha1)).
    rewrite Hr1 in *.
    destruct (emit_returns fuel event data s1 _ _ He1 Ha1 Hret)
      as (s2 & Hs2 & Hdir).
    exists s2. split; [done|]. split; [done|].
    rewrite Hdir. intros (h' & Heq & Hin)%list_elem_of_fmap.
    simplify_eq. done.
Qed.

(** C9 — Unregistering from a topic named like a member of
    [Object.prototype]: no handler was ever registered for
    ["constructor"], yet [off] raises a [TypeError] ([events["constructor"]]
    is the inherited [Object], which has no [filter]) where the specification
    promises a no-op. *)
Theorem off_unknown_topic_constructor h (c : client) :
  events_off "constructor" h (initial c)
  = Threw TypeError (initial (hid := hid) c).
Proof. reflexivity. Qed.

(** ** The store *)

Lemma state_get_unset key s :
  store s !! key = None → inherited key = false →
  state_get key s = VUndefined.
Proof.
  intros Hs Hi. unfold state_get, object_prototype_get. rewrite Hs.
  unfold inherited in Hi. apply orb_false_iff in Hi as [-> ->].
  by destruct (store_proto_null s).
Qed.

(** For a key that [Object.prototype] does not have and that has no
    subscriber: [get] before any [set] is [undefined], and [get] right
    after [set(key, v)] is [v]. *)
Lemma get_after_set rn key v s :
  inherited key = false → listeners s !! key = None →
  (store s !! key = None → state_get key s = VUndefined)
  ∧ ∃ s', state_set handlers rn key v s = Done s' ∧ state_get key s' = v.
Proof.
  intros Hi Hl. split; [intros; by apply state_get_unset|].
  unfold state_set.
  rewrite store_put_ordinary by (by apply inherited_proto).
  destruct (utils_log_fields (LogState key v)
    (with_store (<[key:=v]> (store s)) s)) as (_ & _ & Hli & Hst & Hn & _).
  unfold prop_lookup. rewrite Hli. simpl. rewrite Hl, Hi.
  eexists. split; [done|].
  unfold state_get. rewrite Hst, Hn. simpl. by rewrite lookup_insert_eq.
Qed.

(** C4 — Reading a key named like a member of [Object.prototype] before
    any write: [store["constructor"]] is the inherited function [Object],
    not [undefined].  And writing ["__proto__"] stores nothing: the
    inherited setter ignores a string, [set] then raises a [TypeError]
    ([listeners["__proto__"]] has no [forEach]), and [get] still answers
    [Object.prototype]. *)
Theorem get_unset_key_constructor rn (c : client) :
  state_get "constructor" (initial (hid := hid) c) = VNative "constructor"
  ∧ state_set handlers rn "__proto__" (VStr "dark") (initial c)
    = Threw TypeError (initial c)
  ∧ state_get "__proto__" (initial (hid := hid) c) = VObjectPrototype.
Proof. repeat split; reflexivity. Qed.

(** ** Invariants of the page *)

Section Stable.
Variable P : orbital → Prop.
Hypothesis HP : stable Date_now location_pathname P.

Lemma holds_after_and_then o (k : orbital → outcome) :
  holds_after P o → (∀ s, P s → holds_after P (k s)) →
  holds_after P (and_then o k).
Proof. intros Ho Hk. destruct o; simpl in *; auto. Qed.

Lemma invoke_stable rn h arg s :
  (∀ p s, P s → holds_after P (rn p s)) →
  P s → holds_after P (invoke handlers rn h arg s).
Proof.
  intros Hrn Hs. unfold invoke.
  specialize (Hrn (handlers h arg) (enter h arg s)
    (stable_enter _ _ _ HP h arg s Hs)).
  destruct (rn _ _); simpl in *; try done;
    by apply (stable_depth _ _ _ HP).
Qed.

Lemma forEach_stable (cb : hid → orbital → outcome) a n :
  (∀ h s, P s → holds_after P (cb h s)) →
  ∀ k s, P s → holds_after P (forEach cb a k n s).
Proof.
  intros Hcb. induction n as [|n IH]; intros k s Hs; simpl; [done|].
  destruct (array a s !! k) as [h|]; [|by apply IH].
  apply holds_after_and_then; [by apply Hcb|]. intros; by apply IH.
Qed.

Lemma events_emit_stable rn event data s :
  (∀ p s, P s → holds_after P (rn p s)) →
  P s → holds_after P (events_emit handlers rn event data s).
Proof.
  intros Hrn Hs. unfold events_emit.
  pose proof (stable_utils_log _ _ _ HP (LogEvent event data) s Hs).
  destruct (prop_lookup _ event); simpl; try done.
  apply forEach_stable; [|done]. intros; by apply invoke_stable.
Qed.

Lemma state_set_stable rn key v s :
  (∀ p s, P s → holds_after P (rn p s)) →
  P s → holds_after P (state_set handlers rn key v s).
Proof.
  intros Hrn Hs. unfold state_set.
  destruct (store_put key v s) as [s1|] eqn:Hput; [|done].
  pose proof (stable_utils_log _ _ _ HP (LogState key v) s1
    (stable_put _ _ _ HP _ _ _ _ Hs Hput)).
  destruct (prop_lookup _ key); simpl; try done.
  apply forEach_stable; [|done]. intros; by apply invoke_stable.
Qed.

Lemma exec_stable fuel : ∀ p s, P s → holds_after P (run fuel p s).
Proof.
  induction fuel as [|f IH]; intros p s Hs; [done|].
  destruct p; simpl.
  - done.
  - apply holds_after_and_then; [by apply (stable_on _ _ _ HP)|apply IH].
  - apply holds_after_and_then; [by apply (stable_off _ _ _ HP)|apply IH].
  - apply holds_after_and_then; [by apply events_emit_stable|apply IH].
  - by apply IH.
  - apply holds_after_and_then; [by apply state_set_stable|apply IH].
  - apply holds_after_and_then;
      [by apply (stable_subscribe _ _ _ HP)|apply IH].
  - apply IH. by apply (stable_analytics_log _ _ _ HP).
  - apply IH. by apply (stable_client _ _ _ HP).
  - done.
  - pose proof (IH p1 s Hs) as H1.
    destruct (run f p1 s) as [s'|e s'| |]; simpl in *; try done.
    + by apply IH.
    + apply holds_after_and_then; [by apply IH|apply IH].
Qed.
End Stable.

Lemma well_formed_initial (c : client) : well_formed (initial (hid := hid) c).
Proof. split; intros k a Hk; simpl in Hk; by rewrite lookup_empty in Hk. Qed.

Lemma well_formed_same s s' :
  events s' = events s → listeners s' = listeners s → heap s' = heap s →
  well_formed s → well_formed s'.
Proof. intros He Hl Hh. unfold well_formed. by rewrite He, Hl, Hh. Qed.

Lemma well_formed_push a h s : well_formed s → well_formed (push a h s).
Proof.
  unfold well_formed. simpl. by rewrite length_alter.
Qed.

Lemma well_formed_stable :
  stable (hid := hid) (client := client) Date_now location_pathname
    well_formed.
Proof.
  split.
  - intros event h s Hs. unfold events_on.
    destruct (prop_lookup (events s) event) eqn:Hp; simpl.
    + apply prop_lookup_absent in Hp as [He Hi].
      unfold prop_lookup. simpl. rewrite lookup_insert_eq. simpl.
      apply well_formed_push. destruct Hs as [H1 H2]. split; simpl.
      * intros k a. rewrite length_app. simpl.
        destruct (decide (k = event)) as [->|Hne].
        -- rewrite lookup_insert_eq. intros [= <-]. split; [done|lia].
        -- rewrite lookup_insert_ne by done. intros Hk.
           destruct (H1 _ _ Hk). split; [done|lia].
      * intros k a Hk. rewrite length_app. simpl.
        destruct (H2 _ _ Hk). split; [done|lia].
    + rewrite Hp. simpl. by apply well_formed_push.
    + by rewrite Hp.
  - intros event h s Hs. unfold events_off.
    destruct (prop_lookup (events s) event) eqn:Hp; simpl; try done.
    apply prop_lookup_own in Hp. destruct Hs as [H1 H2]. split; simpl.
    + intros k a'. rewrite length_app. simpl.
      destruct (decide (k = event)) as [->|Hne].
      * rewrite lookup_insert_eq. intros [= <-].
        destruct (H1 _ _ Hp). split; [done|lia].
      * rewrite lookup_insert_ne by done. intros Hk.
        destruct (H1 _ _ Hk). split; [done|lia].
    + intros k a' Hk. rewrite length_app. simpl.
      destruct (H2 _ _ Hk). split; [done|lia].
  - intros key fn s Hs. unfold state_subscribe.
    destruct (prop_lookup (listeners s) key) eqn:Hp; simpl.
    + apply prop_lookup_absent in Hp as [He Hi].
      unfold prop_lookup. simpl. rewrite lookup_insert_eq. simpl.
      apply well_formed_push. destruct Hs as [H1 H2]. split; simpl.
      * intros k a Hk. rewrite length_app. simpl.
        destruct (H1 _ _ Hk). split; [done|lia].
      * intros k a. rewrite length_app. simpl.
        destruct (decide (k = key)) as [->|Hne].
        -- rewrite lookup_insert_eq. intros [= <-]. split; [done|lia].
        -- rewrite lookup_insert_ne by done. intros Hk.
           destruct (H2 _ _ Hk). split; [done|lia].
    + rewrite Hp. simpl. by apply well_formed_push.
    + by rewrite Hp.
  - intros key v s s' Hs Hput.
    destruct (store_put_fields _ _ _ _ Hput) as (Hh & He & Hl & _).
    by eapply well_formed_same.
  - intros line s Hs.
    destruct (utils_log_fields line s) as (Hh & He & Hl & _).
    by eapply well_formed_same.
  - intros ty p s Hs. unfold analytics_log.
    match goal with |- well_formed (utils_log ?l ?st) =>
      destruct (utils_log_fields l st) as (Hh & He & Hl & _) end.
    by eapply well_formed_same.
  - intros c s Hs. by eapply well_formed_same.
  - intros h arg s Hs. by eapply well_formed_same.
  - intros d s Hs. by eapply well_formed_same.
Qed.

(** Every state reached from a well-formed one is well-formed. *)
Lemma exec_well_formed fuel p s :
  well_formed s → holds_after well_formed (run fuel p s).
Proof. apply exec_stable, well_formed_stable. Qed.

Lemma well_formed_subscribed s key a :
  well_formed s → listeners s !! key = Some a →
  key ≠ "__proto__" ∧ ∃ fns, heap s !! a = Some fns.
Proof.
  intros [_ H2] Hk. destruct (H2 _ _ Hk) as [Hi Hlt]. split.
  - by apply inherited_proto.
  - by apply lookup_lt_is_Some in Hlt as [fns ->]; eauto.
Qed.

(** ** Errors raised during a pass *)

Lemma raises_Throw fuel h arg x :
  handlers h arg = Throw x →
  raises handlers Date_now location_pathname (S fuel) h arg (Thrown x).
Proof. intros Hb s. rewrite Hb. by eexists. Qed.

Lemma invoke_Throw fuel h arg x s :
  handlers h arg = Throw x →
  invoke handlers (run (S fuel)) h arg s
  = Threw (Thrown x) (with_calls (calls s ++ [Call (depth s) h arg]) s).
Proof. intros Hb. unfold invoke. by rewrite Hb. Qed.

(** The walk over [pre ++ h :: post] when the handlers of [pre] return and
    [h] raises: the error leaves the walk, and [post] is not called. *)
Lemma forEach_raises fuel a arg pre h post e :
  (∀ h', h' ∈ pre → returns handlers Date_now location_pathname fuel h' arg) →
  raises handlers Date_now location_pathname fuel h arg e →
  ∀ s more, heap s !! a = Some ((pre ++ h :: post) ++ more) →
  ∃ s', forEach (λ h, invoke handlers (run fuel) h arg) a 0
          (length (pre ++ h :: post)) s = Threw e s'
        ∧ direct_calls s s' = (., arg) <$> (pre ++ [h]).
Proof.
  intros Hret Hraise s more Ha.
  rewrite <- app_assoc in Ha.
  destruct (forEach_returns fuel a arg pre (length pre) Hret 0 s _ Ha eq_refl)
    as [sA HsA].
  pose proof (forEach_snapshot (run fuel) a arg pre (length pre)
    (exec_extends fuel) 0 s _ Ha eq_refl) as Hdir.
  pose proof (forEach_extends (λ h, invoke handlers (run fuel) h arg) a
    (length pre) (λ h s, invoke_extends (run fuel) h arg s (exec_extends fuel))
    0 s) as Hext.
  rewrite HsA in Hdir, Hext. simpl in Hext. rewrite drop_0 in Hdir.
  destruct (ext_heap _ _ Hext _ _ Ha) as [l' Ha'].
  assert (array a sA !! length pre = Some h) as Hk.
  { rewrite (array_heap _ _ _ Ha'), <- app_assoc. simpl.
    by rewrite list_lookup_middle. }
  pose proof (invoke_extends (run fuel) h arg sA (exec_extends fuel)) as Hext2.
  pose proof (direct_calls_invoke (run fuel) h arg sA (exec_extends fuel))
    as Hdir2.
  assert (∃ s', invoke handlers (run fuel) h arg sA = Threw e s') as [s' Hs'].
  { unfold invoke. destruct (Hraise (enter h arg sA)) as [s' ->]. by eexists. }
  rewrite Hs' in Hext2, Hdir2. simpl in Hext2.
  exists s'. split.
  - rewrite length_app. simpl length. rewrite forEach_app, HsA.
    cbn [and_then]. rewrite Nat.add_0_l.
    rewrite (forEach_step _ a (length pre) (length post) sA h Hk).
    by rewrite Hs'.
  - rewrite (direct_calls_app s sA s') by done.
    by rewrite Hdir, Hdir2, fmap_app.
Qed.

Lemma state_set_own rn key v s a :
  listeners s !! key = Some a → key ≠ "__proto__" →
  state_set handlers rn key v s
  = forEach (λ fn, invoke handlers rn fn v) a 0 (length (array a s))
      (utils_log (LogState key v) (with_store (<[key := v]> (store s)) s)).
Proof.
  intros Hl Hk. unfold state_set. rewrite store_put_ordinary by done.
  destruct (utils_log_fields (LogState key v)
    (with_store (<[key := v]> (store s)) s)) as (Hh & _ & Hli & _).
  simpl in Hh, Hli. rewrite <- Hli in Hl.
  rewrite (proj2 (prop_lookup_own _ _ _) Hl).
  unfold array. by rewrite Hh.
Qed.

(** C5 — Dispatch is not error-isolated.  When the handlers before [h]
    return and [h] raises [e], a publish on the topic raises [e] and has
    called the handlers up to [h] only; so does a [set] on a key with
    these subscribers.  Any error that leaves publish or [set] leaves the
    later handlers uncalled.  And [set] has written the store before the
    first subscriber runs: when the subscribers before [h] do nothing and
    [h] only throws, [get] after the failed [set] returns the new value. *)
Theorem dispatch_not_error_isolated fuel a pre h post arg e s :
  well_formed s → heap s !! a = Some (pre ++ h :: post) →
  (∀ h', h' ∈ pre →
     returns handlers Date_now location_pathname (S fuel) h' arg) →
  raises handlers Date_now location_pathname (S fuel) h arg e →
  (∀ event, events s !! event = Some a →
     (∃ s', emit (S fuel) event arg s = Threw e s'
            ∧ direct_calls s s' = (., arg) <$> (pre ++ [h]))
     ∧ (∀ fuel' e' s', emit fuel' event arg s = Threw e' s' →
          ∃ j, j < length (pre ++ h :: post)
               ∧ direct_calls s s'
                 = (., arg) <$> take (S j) (pre ++ h :: post)))
  ∧ (∀ key, listeners s !! key = Some a →
       (∃ s', set (S fuel) key arg s = Threw e s'
              ∧ direct_calls s s' = (., arg) <$> (pre ++ [h])
              ∧ ((∀ h', h' ∈ pre → handlers h' arg = Ret) →
                 (∃ x, handlers h arg = Throw x) →
                 state_get key s' = arg))
       ∧ (∀ fuel' e' s', set fuel' key arg s = Threw e' s' →
            ∃ j, j < length (pre ++ h :: post)
                 ∧ direct_calls s s'
                   = (., arg) <$> take (S j) (pre ++ h :: post))).
Proof.
  intros Hwf Ha Hret Hraise. split.
  - intros event He. split.
    + rewrite (events_emit_own _ _ _ _ _ He), (array_heap _ _ _ Ha).
      destruct (utils_log_fields (LogEvent event arg) s)
        as (Hh & _ & _ & _ & _ & Hd & Hc & _).
      destruct (forEach_raises (S fuel) a arg pre h post e Hret Hraise
        (utils_log (LogEvent event arg) s) [])
        as (s' & Hs' & Hdir); [by rewrite Hh, app_nil_r|].
      exists s'. split; [done|].
      by rewrite <- (direct_calls_frame s (utils_log (LogEvent event arg) s) s').
    + intros fuel' e' s' Hs'.
      pose proof (events_emit_snapshot (run fuel') event arg s a _
        (exec_extends fuel') He Ha) as Hsnap.
      by rewrite Hs' in Hsnap.
  - intros key Hl.
    destruct (well_formed_subscribed s key a Hwf Hl) as [Hk _]. split.
    + rewrite (state_set_own _ _ _ _ _ Hl Hk), (array_heap _ _ _ Ha).
      set (s0 := utils_log (LogState key arg)
                   (with_store (<[key := arg]> (store s)) s)).
      destruct (utils_log_fields (LogState key arg)
        (with_store (<[key := arg]> (store s)) s))
        as (Hh & _ & _ & Hst & Hn & Hd & Hc & _).
      fold s0 in Hh, Hst, Hn, Hd, Hc. simpl in Hh, Hst, Hn, Hd, Hc.
      assert (heap s0 !! a = Some ((pre ++ h :: post) ++ [])) as Ha0
        by (by rewrite Hh, app_nil_r).
      destruct (forEach_raises (S fuel) a arg pre h post e Hret Hraise s0 []
        Ha0) as (s' & Hs' & Hdir).
      exists s'. split; [done|]. split.
      { by rewrite <- (direct_calls_frame s s0 s'). }
      intros HRet [x Hx].
      rewrite length_app in Hs'. simpl length in Hs'.
      rewrite forEach_app in Hs'.
      rewrite app_nil_r in Ha0.
      assert (0 + length pre ≤ length (pre ++ h :: post)) as Hlen
        by (rewrite length_app; simpl; lia).
      assert (∀ h', h' ∈ take (length pre) (drop 0 (pre ++ h :: post)) →
                handlers h' arg = Ret) as HRet0.
      { intros h' Hin. apply HRet.
        by rewrite drop_0, take_app_length in Hin. }
      destruct (forEach_Ret fuel a arg _ _ 0 s0 Ha0 Hlen HRet0)
        as (sA & HsA & HhA & _ & _ & HstA & HnA).
      rewrite HsA in Hs'. cbn [and_then] in Hs'. rewrite Nat.add_0_l in Hs'.
      assert (array a sA !! length pre = Some h) as Hidx.
      { rewrite (array_heap a sA (pre ++ h :: post)) by congruence.
        by rewrite list_lookup_middle. }
      rewrite (forEach_step _ a (length pre) (length post) sA h Hidx) in Hs'.
      rewrite (invoke_Throw fuel h arg x sA Hx) in Hs'. simpl in Hs'.
      injection Hs' as _ <-.
      unfold state_get. simpl. rewrite HstA, Hst.
      by rewrite lookup_insert_eq.
    + intros fuel' e' s' Hs'.
      pose proof (state_set_snapshot (run fuel') key arg s a _
        (exec_extends fuel') Hl Ha) as Hsnap.
      by rewrite Hs' in Hsnap.
Qed.

(** ** Subscribers *)

(** C7 — No equality suppression in the store.  Two consecutive
    [set(key, v)] each call every subscriber of [key], once per
    subscription, in order, with [v]; the second pass also calls the
    subscribers that the first pass added, [extra].  Nothing is asked of
    the value stored before; and when the subscribers do nothing, the
    second [set] writes the value that is already stored ([get] answers
    [v] after the first) and still calls them all. *)
Theorem set_no_equality_suppression fuel key v s a fns :
  well_formed s → listeners s !! key = Some a → heap s !! a = Some fns →
  (∀ h, h ∈ fns →
     returns handlers Date_now location_pathname (S fuel) h v) →
  ∃ s1 extra,
    set (S fuel) key v s = Done s1
    ∧ direct_calls s s1 = (., v) <$> fns
    ∧ subscribed key s1 = fns ++ extra
    ∧ ((∀ h, h ∈ extra →
          returns handlers Date_now location_pathname (S fuel) h v) →
       ∃ s2, set (S fuel) key v s1 = Done s2
             ∧ direct_calls s1 s2 = (., v) <$> (fns ++ extra))
    ∧ ((∀ h, h ∈ fns → handlers h v = Ret) →
       extra = [] ∧ state_get key s1 = v).
Proof.
  intros Hwf Hl Ha Hret.
  destruct (well_formed_subscribed s key a Hwf Hl) as [Hk _].
  assert (∀ s0, is_Some (store_put key v s0)) as Hput
    by (intros s0; rewrite store_put_ordinary by done; by eexists).
  destruct (set_returns (S fuel) key v s a fns Hl Ha (Hput s) Hret)
    as (s1 & Hs1 & Hdir1).
  pose proof (state_set_extends (run (S fuel)) key v s
    (exec_extends (S fuel))) as Hext.
  rewrite Hs1 in Hext. simpl in Hext.
  destruct (ext_heap _ _ Hext _ _ Ha) as [extra Ha1].
  pose proof (ext_listeners _ _ Hext _ _ Hl) as Hl1.
  exists s1, extra. split; [done|]. split; [done|]. split; [|split].
  - unfold subscribed. by rewrite Hl1, (array_heap _ _ _ Ha1).
  - intros Hret'.
    apply (set_returns (S fuel) key v s1 a _ Hl1 Ha1 (Hput s1)).
    intros h [Hin|Hin]%elem_of_app; auto.
  - intros HRet.
    rewrite (state_set_own _ _ _ _ _ Hl Hk), (array_heap _ _ _ Ha) in Hs1.
    destruct (utils_log_fields (LogState key v)
      (with_store (<[key := v]> (store s)) s))
      as (Hh & _ & _ & Hst & _).
    simpl in Hh, Hst.
    assert (∀ h, h ∈ take (length fns) (drop 0 fns) → handlers h v = Ret)
      as HRet0 by (by rewrite drop_0, firstn_all).
    destruct (forEach_Ret fuel a v fns (length fns) 0 _
      ltac:(rewrite Hh; exact Ha) ltac:(lia) HRet0)
      as (s' & Hs' & Hh' & _ & _ & Hst' & _).
    rewrite Hs' in Hs1. injection Hs1 as ->. split.
    + rewrite Hh', Hh, Ha in Ha1. injection Ha1 as Ha1.
      rewrite <- (app_nil_r fns) in Ha1 at 1. by apply app_inv_head in Ha1.
    + unfold state_get. rewrite Hst', Hst. by rewrite lookup_insert_eq.
Qed.

Lemma state_subscribe_no_call key fn s :
  holds_after (λ s', calls s' = calls s) (state_subscribe key fn s).
Proof.
  unfold state_subscribe.
  destruct (prop_lookup (listeners s) key) eqn:Hp; simpl.
  - unfold prop_lookup. simpl. by rewrite lookup_insert_eq.
  - by rewrite Hp.
  - by rewrite Hp.
Qed.

Lemma state_subscribe_fresh key fn s :
  listeners s !! key = None → inherited key = false →
  ∃ s', state_subscribe key fn s = Done s'
        ∧ listeners s' !! key = Some (length (heap s))
        ∧ heap s' !! length (heap s) = Some [fn].
Proof.
  intros He Hi.
  assert (prop_lookup (listeners s) key = Absent) as Hp
    by (unfold prop_lookup; by rewrite He, Hi).
  unfold state_subscribe. rewrite Hp. simpl.
  unfold prop_lookup. simpl. rewrite lookup_insert_eq.
  eexists. split; [done|]. split; simpl.
  - apply lookup_insert_eq.
  - rewrite list_lookup_alter_eq. by rewrite list_lookup_middle.
Qed.

Lemma state_subscribe_registered key fn s a l :
  listeners s !! key = Some a → heap s !! a = Some l →
  ∃ s', state_subscribe key fn s = Done s'
        ∧ listeners s' !! key = Some a ∧ heap s' !! a = Some (l ++ [fn]).
Proof.
  intros He Ha. unfold state_subscribe.
  rewrite (proj2 (prop_lookup_own _ _ _) He). cbv zeta.
  rewrite (proj2 (prop_lookup_own _ _ _) He).
  eexists. split; [done|]. split; [done|]. simpl.
  by rewrite list_lookup_alter_eq, Ha.
Qed.

(** For a key that [Object.prototype] does not have: [subscribe] calls
    nothing, and the next [set(key, v)] calls the earlier subscribers and
    then [fn], each once, with [v]. *)
Lemma subscribe_then_set fuel key fn v s :
  well_formed s → inherited key = false →
  (∀ h, h ∈ subscribed key s ++ [fn] →
     returns handlers Date_now location_pathname fuel h v) →
  ∃ s1 s2,
    state_subscribe key fn s = Done s1 ∧ calls s1 = calls s
    ∧ set fuel key v s1 = Done s2
    ∧ direct_calls s1 s2 = (., v) <$> (subscribed key s ++ [fn]).
Proof.
  intros Hwf Hi Hret.
  assert (∀ s0, is_Some (store_put key v s0)) as Hput.
  { intros s0. rewrite store_put_ordinary by (by apply inherited_proto).
    by eexists. }
  pose proof (state_subscribe_no_call key fn s) as Hc.
  unfold subscribed in *.
  destruct (listeners s !! key) as [a|] eqn:Hl.
  - destruct (well_formed_subscribed s key a Hwf Hl) as [_ [l Ha]].
    rewrite (array_heap _ _ _ Ha) in *.
    destruct (state_subscribe_registered key fn s a l Hl Ha)
      as (s1 & Hs1 & Hl1 & Ha1).
    rewrite Hs1 in Hc. simpl in Hc.
    destruct (set_returns fuel key v s1 a _ Hl1 Ha1 (Hput s1) Hret)
      as (s2 & Hs2 & Hdir).
    by exists s1, s2.
  - destruct (state_subscribe_fresh key fn s Hl Hi)
      as (s1 & Hs1 & Hl1 & Ha1).
    rewrite Hs1 in Hc. simpl in Hc.
    destruct (set_returns fuel key v s1 _ _ Hl1 Ha1 (Hput s1) Hret)
      as (s2 & Hs2 & Hdir).
    by exists s1, s2.
Qed.

(** C8 — Subscribing to a key named like a member of [Object.prototype]:
    [listeners["constructor"]] is the inherited function [Object], which
    has no [push], so [subscribe] raises a [TypeError]; the [set] that
    follows writes the store, then raises a [TypeError] too
    ([forEach] is missing as well) and never calls [fn], where the specification
    promises one call of [fn]. *)
Theorem subscribe_key_constructor rn (fn : hid) v (c : client) :
  state_subscribe "constructor" fn (initial c) = Threw TypeError (initial c)
  ∧ state_set handlers rn "constructor" v (initial c)
    = Threw TypeError
        (with_store (<["constructor" := v]> ∅) (initial (hid := hid) c))
  ∧ calls (with_store (<["constructor" := v]> ∅) (initial (hid := hid) c))
    = [].
Proof. repeat split; reflexivity. Qed.

(** ** The analytics queue *)

Lemma analytics_log_queue ty p s :
  queue (log ty p s)
  = (let q := queue s ++ [new_event Date_now location_pathname (logged s) ty p] in
     if bool_decide (MAX_QUEUE < length q) then tail q else q)
  ∧ logged (log ty p s) = S (logged s)
  ∧ copies (log ty p s) = copies s.
Proof.
  unfold analytics_log.
  match goal with |- context [utils_log ?l ?st] =>
    destruct (utils_log_fields l st)
      as (_ & _ & _ & _ & _ & _ & _ & -> & -> & ->) end.
  done.
Qed.

Lemma most_recent_app {A} n (l l2 : list A) :
  most_recent n (most_recent n l ++ l2) = most_recent n (l ++ l2).
Proof.
  unfold most_recent.
  rewrite <- (drop_app_le l l2) by lia.
  rewrite drop_drop, length_drop, !length_app. f_equal. lia.
Qed.

Lemma analytics_log_most_recent ty p s :
  length (queue s) ≤ MAX_QUEUE →
  queue (log ty p s)
  = most_recent MAX_QUEUE
      (queue s ++ [new_event Date_now location_pathname (logged s) ty p]).
Proof.
  intros Hlen. destruct (analytics_log_queue ty p s) as (-> & _).
  cbv zeta. unfold most_recent. rewrite length_app. simpl length.
  case_bool_decide as Hb.
  - replace (length (queue s) + 1 - MAX_QUEUE) with 1 by lia.
    by destruct (queue s ++ _).
  - by replace (length (queue s) + 1 - MAX_QUEUE) with 0 by lia.
Qed.

Lemma length_most_recent {A} n (l : list A) : length (most_recent n l) ≤ n.
Proof. unfold most_recent. rewrite length_drop. lia. Qed.

Lemma log_all_most_recent cs :
  ∀ s, length (queue s) ≤ MAX_QUEUE →
  queue (log_all Date_now location_pathname cs s)
  = most_recent MAX_QUEUE
      (queue s ++ built Date_now location_pathname (logged s) cs)
  ∧ logged (log_all Date_now location_pathname cs s) = logged s + length cs.
Proof.
  induction cs as [|[ty p] cs IH]; intros s Hlen; simpl.
  - rewrite app_nil_r. unfold most_recent.
    by replace (length (queue s) - MAX_QUEUE) with 0 by lia.
  - pose proof (analytics_log_most_recent ty p s Hlen) as Hq.
    destruct (analytics_log_queue ty p s) as (_ & Hn & _).
    destruct (IH (log ty p s)) as [IHq IHn].
    { rewrite Hq. apply length_most_recent. }
    rewrite IHq, IHn, Hq, Hn. split; [|lia].
    by rewrite most_recent_app, <- app_assoc.
Qed.

(** C6 — The analytics queue is a bounded FIFO.  From a state whose
    queue is within the bound (the initial one is), whatever calls of
    analytics.log follow, the queue holds at most [MAX_QUEUE] records, and
    they are the most recent ones of all those held or built, in the
    order they were built; a single call appends its record at the tail
    and, when the queue was full, drops the record at the head. *)
Theorem queue_bounded_fifo cs s :
  length (queue s) ≤ MAX_QUEUE →
  length (queue (log_all Date_now location_pathname cs s)) ≤ MAX_QUEUE
  ∧ queue (log_all Date_now location_pathname cs s)
    = most_recent MAX_QUEUE
        (queue s ++ built Date_now location_pathname (logged s) cs)
  ∧ (∀ ty p,
       queue (log ty p s)
       = (if decide (length (queue s) < MAX_QUEUE) then queue s
          else tail (queue s))
         ++ [new_event Date_now location_pathname (logged s) ty p]).
Proof.
  intros Hlen. destruct (log_all_most_recent cs s Hlen) as [Hq _].
  split; [|split; [done|]].
  - rewrite Hq. apply length_most_recent.
  - intros ty p. destruct (analytics_log_queue ty p s) as (-> & _).
    cbv zeta. rewrite length_app. simpl length.
    case_bool_decide; case_decide; try lia; [|done].
    destruct (queue s) eqn:Hqs; [simpl in *; unfold MAX_QUEUE in *; lia|done].
Qed.

(** The bound also holds after any client code has run. *)
Lemma queue_bound_stable :
  stable (hid := hid) (client := client) Date_now location_pathname
    (λ s, length (queue s) ≤ MAX_QUEUE).
Proof.
  split; try done.
  - intros event h s Hs. unfold events_on.
    destruct (prop_lookup (events s) event) eqn:Hp; simpl.
    + unfold prop_lookup. simpl. by rewrite lookup_insert_eq.
    + by rewrite Hp.
    + by rewrite Hp.
  - intros event h s Hs. unfold events_off.
    by destruct (prop_lookup (events s) event).
  - intros key fn s Hs. unfold state_subscribe.
    destruct (prop_lookup (listeners s) key) eqn:Hp; simpl.
    + unfold prop_lookup. simpl. by rewrite lookup_insert_eq.
    + by rewrite Hp.
    + by rewrite Hp.
  - intros key v s s' Hs. unfold store_put, proto_setter.
    destruct (store s !! key);
      [|destruct (negb (store_proto_null s) && bool_decide (key = "__proto__"));
        [destruct v|]];
      intros; by simplify_eq.
  - intros line s Hs.
    by destruct (utils_log_fields line s)
      as (_ & _ & _ & _ & _ & _ & _ & -> & _).
  - intros ty p s Hs. rewrite analytics_log_most_recent by done.
    apply length_most_recent.
Qed.

Lemma exec_queue_bound fuel p s :
  length (queue s) ≤ MAX_QUEUE →
  holds_after (λ s', length (queue s') ≤ MAX_QUEUE) (run fuel p s).
Proof.
  apply (exec_stable (λ s', length (queue s') ≤ MAX_QUEUE) queue_bound_stable).
Qed.

(** C2 (as the code has it) — From an empty queue, one call with type
    ["t1"] and then fifty with type ["t2"] leave exactly the fifty ["t2"]
    records: the head is the record built by the {e first} ["t2"] call
    (only the ["t1"] record was evicted), the tail the one built by the
    fiftieth. *)
Theorem fifty_one_records p0 ps s :
  queue s = [] → length ps = 50 →
  let s' := log_all Date_now location_pathname
              (("t1", p0) :: ((λ p, ("t2", p)) <$> ps)) s in
  queue s'
  = built Date_now location_pathname (S (logged s)) ((λ p, ("t2", p)) <$> ps)
  ∧ length (queue s') = 50
  ∧ head (queue s')
    = new_event Date_now location_pathname (logged s + 1) "t2" <$> head ps
  ∧ last (queue s')
    = new_event Date_now location_pathname (logged s + 50) "t2" <$> last ps.
Proof.
  intros Hq Hlen s'.
  assert (∀ n (l : list value),
    length (built Date_now location_pathname n ((λ p, ("t2", p)) <$> l))
    = length l) as Hbl.
  { intros n l. revert n. induction l; intros n; simpl; [done|].
    by rewrite IHl. }
  assert (queue s'
          = built Date_now location_pathname (S (logged s))
              ((λ p, ("t2", p)) <$> ps)) as Hs'.
  { unfold s'.
    destruct (log_all_most_recent (("t1", p0) :: ((λ p, ("t2", p)) <$> ps)) s)
      as [-> _]; [rewrite Hq; simpl; unfold MAX_QUEUE; lia|].
    rewrite Hq. simpl. unfold most_recent. simpl length.
    rewrite Hbl, Hlen. by unfold MAX_QUEUE. }
  rewrite Hs'. split; [done|]. split; [by rewrite Hbl|]. split.
  - destruct ps; simpl; [done|]. do 2 f_equal. lia.
  - assert (∀ n (l : list value),
      last (built Date_now location_pathname n ((λ p, ("t2", p)) <$> l))
      = new_event Date_now location_pathname (n + length l - 1) "t2"
          <$> last l) as Hlast.
    { intros n l. revert n. induction l as [|p l IH]; intros n; [done|].
      destruct l as [|p' l].
      - simpl. do 2 f_equal. lia.
      - change (last (built Date_now location_pathname n
                  ((λ p, ("t2", p)) <$> p :: p' :: l)))
          with (last (built Date_now location_pathname (S n)
                  ((λ p, ("t2", p)) <$> p' :: l))).
        rewrite IH. simpl. do 2 f_equal. lia. }
    rewrite Hlast, Hlen. do 2 f_equal. lia.
Qed.

(** C10 — getQueue returns a new array with the records of the queue in
    order.  Whatever the caller then does to that array, the queue is
    unchanged, every other array is unchanged, and a later getQueue
    returns yet another array, again with the records of the queue; nor
    does a later call of analytics.log alter an array handed out before. *)
Theorem getQueue_independent_copy s f :
  let r := (analytics_getQueue s).1 in
  let s1 := (analytics_getQueue s).2 in
  let s2 := mutate r f s1 in
  let r3 := (analytics_getQueue s2).1 in
  let s3 := (analytics_getQueue s2).2 in
  record_array r s1 = Some (queue s) ∧ record_array r s = None
  ∧ queue s1 = queue s
  ∧ queue s2 = queue s
  ∧ (∀ r', r' ≠ r → record_array r' s2 = record_array r' s1)
  ∧ record_array r3 s3 = Some (queue s) ∧ r3 ≠ r
  ∧ (∀ ty p, record_array r (log ty p s1) = Some (queue s)).
Proof.
  simpl. repeat split.
  - by rewrite list_lookup_middle.
  - apply lookup_ge_None_2. lia.
  - intros [|i] Hne; simpl; [done|].
    apply list_lookup_alter_ne. congruence.
  - by apply list_lookup_middle.
  - rewrite length_alter, length_app. simpl. lia.
  - intros ty p. destruct (analytics_log_queue ty p (analytics_getQueue s).2)
      as (_ & _ & Hc). simpl in *. rewrite Hc.
    by rewrite list_lookup_middle.
Qed.

End Properties.

(** * The properties at the example page *)

Lemma demo_page_well_formed : well_formed demo_page.
Proof.
  pose proof (exec_well_formed demo_handlers demo_now demo_pathname 11
    demo_setup (initial tt) (well_formed_initial tt)) as Hwf.
  unfold demo_page.
  destruct (exec demo_handlers demo_now demo_pathname 11 demo_setup (initial tt));
    try done; apply well_formed_initial.
Qed.

Lemma demo_page_arrays :
  heap demo_page = [[1; 2]; [3; 2]; [2; 5; 2]; [2; 5; 2]]
  ∧ events demo_page !! "x" = Some 0
  ∧ events demo_page !! "y" = Some 1
  ∧ events demo_page !! "z" = Some 2
  ∧ listeners demo_page !! "theme" = Some 3.
Proof. repeat split; reflexivity. Qed.

(** Handler 1 unregisters itself during a publish on ["x"]: handler 2 still
    runs in that pass, and the next publish calls handler 2 only.  Handler 3
    registers handler 4 during a publish on ["y"]: handler 4 is not called
    in that pass, and is called last by the next. *)
Lemma emit_snapshot_dispatch_witness :
  (∃ s',
     events_emit demo_handlers (exec demo_handlers demo_now demo_pathname 2)
       "x" (VNum 5) demo_page = Done s'
     ∧ direct_calls demo_page s' = (., VNum 5) <$> [1; 2])
  ∧ (∃ s1 s2,
     events_emit demo_handlers (exec demo_handlers demo_now demo_pathname 2)
       "x" (VNum 5) demo_page = Done s1
     ∧ direct_calls demo_page s1 = (., VNum 5) <$> [1; 2]
     ∧ registered "x" s1 = [] ++ [2]
     ∧ events_emit demo_handlers (exec demo_handlers demo_now demo_pathname 2)
         "x" (VNum 6) s1 = Done s2
     ∧ direct_calls s1 s2 = (., VNum 6) <$> ([] ++ [2]))
  ∧ (∃ s1 s2,
       events_emit demo_handlers (exec demo_handlers demo_now demo_pathname 2)
         "y" (VNum 5) demo_page = Done s1
       ∧ direct_calls demo_page s1 = (., VNum 5) <$> [3; 2]
       ∧ registered "y" s1 = [3; 2] ++ [4]
       ∧ events_emit demo_handlers (exec demo_handlers demo_now demo_pathname 2)
           "y" (VNum 6) s1 = Done s2
       ∧ direct_calls s1 s2 = (., VNum 6) <$> ([3; 2] ++ [4])).
Proof.
  split; [|split].
  - destruct (emit_snapshot_dispatch demo_handlers demo_now demo_pathname
      0 "x" 0 [1; 2] (VNum 5) demo_page eq_refl eq_refl) as (Hany & _ & _).
    apply Hany. intros h Hin.
    apply elem_of_cons in Hin as [->|Hin].
    + apply (returns_EventsOff demo_handlers demo_now demo_pathname
        0 1 (VNum 5) "x" 1); reflexivity.
    + apply list_elem_of_singleton in Hin. subst h. intros s.
      eexists. reflexivity.
  - destruct (emit_snapshot_dispatch demo_handlers demo_now demo_pathname
      0 "x" 0 [1; 2] (VNum 5) demo_page eq_refl eq_refl) as (_ & Hoff & _).
    apply (Hoff [] 1 [2] (VNum 6)); try reflexivity.
    + intros h Hin. apply list_elem_of_singleton in Hin. subst h. reflexivity.
    + intros h Hin s. apply list_elem_of_singleton in Hin. subst h.
      eexists. reflexivity.
  - destruct (emit_snapshot_dispatch demo_handlers demo_now demo_pathname
      0 "y" 1 [3; 2] (VNum 5) demo_page eq_refl eq_refl) as (_ & _ & Hon).
    apply (Hon [] 3 [2] 4 (VNum 6)); try reflexivity.
    + intros h Hin. apply list_elem_of_singleton in Hin. subst h. reflexivity.
    + intros h Hin s. simpl in Hin.
      repeat (apply elem_of_cons in Hin as [->|Hin];
              [eexists; reflexivity|]).
      by apply elem_of_nil in Hin.
Defined.

(** Handler 5 throws in the middle of the handlers of ["z"], and in the
    middle of the subscribers of ["theme"]. *)
Lemma dispatch_not_error_isolated_witness :
  (∃ s',
     events_emit demo_handlers (exec demo_handlers demo_now demo_pathname 1)
       "z" (VNum 7) demo_page = Threw (Thrown (VStr "boom")) s'
     ∧ direct_calls demo_page s' = (., VNum 7) <$> ([2] ++ [5]))
  ∧ (∃ s',
       state_set demo_handlers (exec demo_handlers demo_now demo_pathname 1)
         "theme" (VNum 7) demo_page = Threw (Thrown (VStr "boom")) s'
       ∧ direct_calls demo_page s' = (., VNum 7) <$> ([2] ++ [5])
       ∧ state_get "theme" s' = VNum 7).
Proof.
  assert (∀ h', h' ∈ [2] →
    returns demo_handlers demo_now demo_pathname 1 h' (VNum 7)) as Hret.
  { intros h Hin s. apply list_elem_of_singleton in Hin. subst h.
    eexists. reflexivity. }
  assert (raises demo_handlers demo_now demo_pathname 1 5 (VNum 7)
            (Thrown (VStr "boom"))) as Hraise.
  { intros s. eexists. reflexivity. }
  split.
  - destruct (dispatch_not_error_isolated demo_handlers demo_now demo_pathname
      0 2 [2] 5 [2] (VNum 7) (Thrown (VStr "boom")) demo_page
      demo_page_well_formed eq_refl Hret Hraise) as [Hemit _].
    exact (proj1 (Hemit "z" eq_refl)).
  - destruct (dispatch_not_error_isolated demo_handlers demo_now demo_pathname
      0 3 [2] 5 [2] (VNum 7) (Thrown (VStr "boom")) demo_page
      demo_page_well_formed eq_refl Hret Hraise) as [_ Hset].
    destruct (proj1 (Hset "theme" eq_refl)) as (s' & Hs' & Hdir & Hget).
    exists s'. split; [exact Hs'|]. split; [exact Hdir|].
    apply Hget.
    + intros h Hin. apply list_elem_of_singleton in Hin. subst h. reflexivity.
    + eexists. reflexivity.
Defined.

(** Two [set("theme", "dark")] in a row on a page whose subscribers do
    nothing. *)
Lemma set_no_equality_suppression_witness :
  ∃ s1 extra,
    state_set quiet_handlers (exec quiet_handlers demo_now demo_pathname 1)
      "theme" (VStr "dark") demo_page = Done s1
    ∧ direct_calls demo_page s1 = (., VStr "dark") <$> [2; 5; 2]
    ∧ subscribed "theme" s1 = [2; 5; 2] ++ extra
    ∧ ((∀ h, h ∈ extra →
          returns quiet_handlers demo_now demo_pathname 1 h (VStr "dark")) →
       ∃ s2,
         state_set quiet_handlers (exec quiet_handlers demo_now demo_pathname 1)
           "theme" (VStr "dark") s1 = Done s2
         ∧ direct_calls s1 s2 = (., VStr "dark") <$> ([2; 5; 2] ++ extra))
    ∧ ((∀ h, h ∈ [2; 5; 2] → quiet_handlers h (VStr "dark") = Ret) →
       extra = [] ∧ state_get "theme" s1 = VStr "dark").
Proof.
  apply (set_no_equality_suppression quiet_handlers demo_now demo_pathname
    0 "theme" (VStr "dark") demo_page 3 [2; 5; 2]
    demo_page_well_formed eq_refl eq_refl).
  intros h _ s. eexists. reflexivity.
Defined.

(** The fifty-one calls of the example, from the empty queue. *)
Lemma queue_bounded_fifo_witness :
  length (queue (initial (hid := nat) tt)) ≤ MAX_QUEUE
  ∧ length (queue (log_all demo_now demo_pathname demo_calls
                     (initial (hid := nat) tt))) ≤ MAX_QUEUE
  ∧ queue (log_all demo_now demo_pathname demo_calls (initial (hid := nat) tt))
    = most_recent MAX_QUEUE
        (queue (initial (hid := nat) tt)
         ++ built demo_now demo_pathname (logged (initial (hid := nat) tt))
              demo_calls)
  ∧ (∀ ty p,
       queue (analytics_log demo_now demo_pathname ty p
                (initial (hid := nat) tt))
       = (if decide (length (queue (initial (hid := nat) tt)) < MAX_QUEUE)
          then queue (initial (hid := nat) tt)
          else tail (queue (initial (hid := nat) tt)))
         ++ [new_event demo_now demo_pathname
               (logged (initial (hid := nat) tt)) ty p]).
Proof.
  assert (length (queue (initial (hid := nat) tt)) ≤ MAX_QUEUE) as Hlen
    by (vm_compute; lia).
  split; [exact Hlen|].
  exact (queue_bounded_fifo demo_now demo_pathname demo_calls
           (initial (hid := nat) tt) Hlen).
Defined.

Lemma fifty_one_records_witness :
  let s' := log_all demo_now demo_pathname
              (("t1", VNum 0) :: ((λ p, ("t2", p)) <$> demo_payloads))
              (initial (hid := nat) tt) in
  queue s'
  = built demo_now demo_pathname (S (logged (initial (hid := nat) tt)))
      ((λ p, ("t2", p)) <$> demo_payloads)
  ∧ length (queue s') = 50
  ∧ head (queue s')
    = new_event demo_now demo_pathname
        (logged (initial (hid := nat) tt) + 1) "t2" <$> head demo_payloads
  ∧ last (queue s')
    = new_event demo_now demo_pathname
        (logged (initial (hid := nat) tt) + 50) "t2" <$> last demo_payloads.
Proof.
  exact (fifty_one_records demo_now demo_pathname (VNum 0) demo_payloads
           (initial (hid := nat) tt) eq_refl eq_refl).
Defined.

(** The calls of the example are numbered from 0: call 0 has type ["t1"],
    call 1 is the first of type ["t2"], call 2 the second. *)
Lemma demo_calls_built :
  built demo_now demo_pathname 0 demo_calls !! 1
  = Some (new_event demo_now demo_pathname 1 "t2" (VNum 1))
  ∧ built demo_now demo_pathname 0 demo_calls !! 2
    = Some (new_event demo_now demo_pathname 2 "t2" (VNum 2))
  ∧ built demo_now demo_pathname 0 demo_calls !! 50
    = Some (new_event demo_now demo_pathname 50 "t2" (VNum 50))
  ∧ head (queue (log_all demo_now demo_pathname demo_calls
                   (initial (hid := nat) tt)))
    = Some (new_event demo_now demo_pathname 1 "t2" (VNum 1)).
Proof. repeat split; vm_compute; reflexivity. Qed.

(** C2 as the specification words it fails: after the fifty-one calls of
    the example the head of the queue is not the record that the second
    ["t2"] call built (call 2, payload 2), but the one the first built. *)
Lemma fifty_one_records_head_not_second :
  let s' := log_all demo_now demo_pathname demo_calls
              (initial (hid := nat) tt) in
  ¬ (length (queue s') = 50
     ∧ head (queue s') = Some (new_event demo_now demo_pathname 2 "t2" (VNum 2))
     ∧ last (queue s') = Some (new_event demo_now demo_pathname 50 "t2" (VNum 50))).
Proof.
  intros s' (_ & Hhead & _). vm_compute in Hhead. discriminate Hhead.
Qed.

(** * Further properties of the core *)

Section Composition.

Context {hid : Type} `{EqDecision hid} {client : Type}.
Variable handlers : hid → value → @prog hid client.
Variable Date_now : nat → Z.
Variable location_pathname : nat → string.

Abbreviation orbital := (@orbital hid client).
Abbreviation outcome := (@outcome hid client).
Abbreviation run := (exec handlers Date_now location_pathname).
Abbreviation emit fuel := (events_emit handlers (run fuel)).
Abbreviation set fuel := (state_set handlers (run fuel)).
Abbreviation log := (analytics_log Date_now location_pathname).

Implicit Types (s : orbital) (o : outcome) (h : hid) (a : loc).

Lemma well_formed_registered s event a :
  well_formed s → events s !! event = Some a →
  inherited event = false ∧ ∃ hs, heap s !! a = Some hs.
Proof.
  intros [H1 _] Hk. destruct (H1 _ _ Hk) as [Hi Hlt]. split; [done|].
  by apply lookup_lt_is_Some in Hlt as [hs ->]; eauto.
Qed.

Lemma events_on_quiet event h s :
  holds_after (λ s', calls s' = calls s ∧ store s' = store s
                     ∧ store_proto_null s' = store_proto_null s
                     ∧ listeners s' = listeners s)
    (events_on event h s).
Proof.
  unfold events_on.
  destruct (prop_lookup (events s) event) eqn:Hp; simpl.
  - unfold prop_lookup. simpl. by rewrite lookup_insert_eq.
  - by rewrite Hp.
  - by rewrite Hp.
Qed.

Lemma register_all_quiet event hs :
  ∀ s, holds_after (λ s', calls s' = calls s ∧ store s' = store s
                          ∧ store_proto_null s' = store_proto_null s
                          ∧ listeners s' = listeners s)
         (register_all event hs s).
Proof.
  induction hs as [|h hs IH]; intros s; simpl; [done|].
  pose proof (events_on_quiet event h s) as Hq.
  destruct (events_on event h s) as [s1| | |]; simpl in *; try done.
  specialize (IH s1).
  destruct (register_all event hs s1); simpl in *; try done;
    destruct Hq as (? & ? & ? & ?), IH as (? & ? & ? & ?);
    repeat split; congruence.
Qed.


(** X2 — [off(event, h)] on a topic with handlers removes every
    occurrence of [h] and keeps the other handlers in their order; it calls
    nothing, leaves the handlers of every other topic as they were, and
    doing it again changes nothing more.  The next publish calls exactly
    the handlers left. *)
Theorem unregister_every_occurrence event h s a :
  well_formed s → events s !! event = Some a →
  ∃ s1,
    events_off event h s = Done s1
    ∧ calls s1 = calls s
    ∧ registered event s1 = filter (λ x, x ≠ h) (registered event s)
    ∧ (∀ event', event' ≠ event → registered event' s1 = registered event' s)
    ∧ (∃ s2, events_off event h s1 = Done s2
             ∧ registered event s2 = registered event s1)
    ∧ (∀ fuel data,
         (∀ h', h' ∈ registered event s1 →
            returns handlers Date_now location_pathname fuel h' data) →
         ∃ s2, emit fuel event data s1 = Done s2
               ∧ direct_calls s1 s2
                 = (., data) <$> filter (λ x, x ≠ h) (registered event s)).
Proof.
  intros Hwf He.
  destruct (events_off_registered event h s a He)
    as (s1 & Hs1 & Hreg & Hheap & Hev).
  assert (events s1 !! event = Some (length (heap s))
          ∧ heap s1 !! length (heap s)
            = Some (filter (λ x, x ≠ h) (array a s))
          ∧ calls s1 = calls s) as (He1 & Ha1 & Hc1).
  { unfold events_off in Hs1.
    rewrite (proj2 (prop_lookup_own _ _ _) He) in Hs1. simpl in Hs1.
    injection Hs1 as <-. simpl. rewrite lookup_insert_eq.
    by rewrite list_lookup_middle. }
  assert (registered event s = array a s) as Hr
    by (unfold registered; by rewrite He).
  exists s1. split; [done|]. split; [done|]. split; [done|].
  split; [|split].
  - intros event' Hne. unfold registered. rewrite (Hev _ Hne).
    destruct (events s !! event') as [a'|] eqn:He'; [|done].
    destruct (well_formed_registered s event' a' Hwf He') as [_ [l Hl]].
    by rewrite (array_heap _ _ _ Hl), (array_heap _ _ _ (Hheap _ _ Hl)).
  - destruct (events_off_registered event h s1 _ He1) as (s2 & Hs2 & Hreg2 & _).
    exists s2. split; [done|]. rewrite Hreg2. apply filter_ne_absent.
    rewrite Hreg. intros [Hx _]%list_elem_of_filter. by apply Hx.
  - intros fuel data Hret. rewrite Hreg, Hr in *.
    apply (emit_returns handlers Date_now location_pathname
      fuel event data s1 _ _ He1 Ha1 Hret).
Qed.

(** X3 — For a key that [Object.prototype] does not have and whose
    subscribers do nothing: [set(key, v)] returns, has called each
    subscriber once, [get(key)] then answers [v], and [get] of every other
    key answers what it answered before. *)
Theorem set_then_get fuel key v s :
  well_formed s → inherited key = false →
  (∀ fn, fn ∈ subscribed key s → handlers fn v = Ret) →
  ∃ s',
    set (S fuel) key v s = Done s'
    ∧ direct_calls s s' = (., v) <$> subscribed key s
    ∧ state_get key s' = v
    ∧ (∀ key', key' ≠ key → state_get key' s' = state_get key' s).
Proof.
  intros Hwf Hi HRet. pose proof (inherited_proto key Hi) as Hk.
  unfold subscribed in *.
  destruct (listeners s !! key) as [a|] eqn:Hl.
  - destruct (well_formed_subscribed s key a Hwf Hl) as [_ [fns Ha]].
    rewrite (array_heap _ _ _ Ha) in *.
    pose proof (state_set_snapshot handlers (run (S fuel)) key v s a fns
      (exec_extends handlers Date_now location_pathname (S fuel)) Hl Ha)
      as Hsnap.
    rewrite (state_set_own handlers _ _ _ _ _ Hl Hk), (array_heap _ _ _ Ha)
      in *.
    destruct (utils_log_fields (LogState key v)
      (with_store (<[key := v]> (store s)) s))
      as (Hh & _ & _ & Hst & Hn & _).
    simpl in Hh, Hst, Hn.
    assert (∀ h, h ∈ take (length fns) (drop 0 fns) → handlers h v = Ret)
      as HRet0 by (by rewrite drop_0, firstn_all).
    destruct (forEach_Ret handlers Date_now location_pathname
      fuel a v fns (length fns) 0 _
      ltac:(rewrite Hh; exact Ha) ltac:(lia) HRet0)
      as (s' & Hs' & _ & _ & _ & Hst' & Hn').
    rewrite Hs' in *. exists s'. split; [done|]. split; [done|].
    unfold state_get. rewrite Hst', Hn', Hst, Hn. split.
    + by rewrite lookup_insert_eq.
    + intros key' Hne. by rewrite lookup_insert_ne.
  - unfold state_set. rewrite store_put_ordinary by done.
    destruct (utils_log_fields (LogState key v)
      (with_store (<[key := v]> (store s)) s))
      as (_ & _ & Hli & Hst & Hn & _ & Hc & _).
    simpl in Hli, Hst, Hn, Hc.
    unfold prop_lookup. rewrite Hli, Hl, Hi.
    eexists. split; [done|]. split; [by apply direct_calls_none|].
    unfold state_get. rewrite Hst, Hn. split.
    + by rewrite lookup_insert_eq.
    + intros key' Hne. by rewrite lookup_insert_ne.
Qed.

Lemma state_subscribe_quiet key fn s :
  holds_after (λ s', calls s' = calls s ∧ store s' = store s
                     ∧ store_proto_null s' = store_proto_null s
                     ∧ events s' = events s)
    (state_subscribe key fn s).
Proof.
  unfold state_subscribe.
  destruct (prop_lookup (listeners s) key) eqn:Hp; simpl.
  - unfold prop_lookup. simpl. by rewrite lookup_insert_eq.
  - by rewrite Hp.
  - by rewrite Hp.
Qed.

(** X4 — [subscribe(key, fn)], for a key that [Object.prototype] does not
    have, puts [fn] after the subscribers the key already has; it calls
    nothing, not even [fn] with the value stored, and leaves the store
    alone.  The next [set(key, v)] calls the earlier subscribers and then
    [fn], with [v]. *)
Theorem subscribe_appends fuel key fn v s :
  well_formed s → inherited key = false →
  (∀ h, h ∈ subscribed key s ++ [fn] →
     returns handlers Date_now location_pathname fuel h v) →
  ∃ s1 s2,
    state_subscribe key fn s = Done s1
    ∧ calls s1 = calls s
    ∧ (∀ key', state_get key' s1 = state_get key' s)
    ∧ subscribed key s1 = subscribed key s ++ [fn]
    ∧ set fuel key v s1 = Done s2
    ∧ direct_calls s1 s2 = (., v) <$> (subscribed key s ++ [fn]).
Proof.
  intros Hwf Hi Hret.
  assert (∀ s0, is_Some (store_put key v s0)) as Hput.
  { intros s0. rewrite store_put_ordinary by (by apply inherited_proto).
    by eexists. }
  pose proof (state_subscribe_quiet key fn s) as Hq.
  unfold subscribed in *.
  destruct (listeners s !! key) as [a|] eqn:Hl.
  - destruct (well_formed_subscribed s key a Hwf Hl) as [_ [l Ha]].
    rewrite (array_heap _ _ _ Ha) in *.
    destruct (state_subscribe_registered key fn s a l Hl Ha)
      as (s1 & Hs1 & Hl1 & Ha1).
    rewrite Hs1 in Hq. destruct Hq as (Hc & Hst & Hn & _).
    destruct (set_returns handlers Date_now location_pathname
      fuel key v s1 a _ Hl1 Ha1 (Hput s1) Hret) as (s2 & Hs2 & Hdir).
    exists s1, s2. rewrite Hl1, (array_heap _ _ _ Ha1).
    repeat split; try done. intros key'. unfold state_get. by rewrite Hst, Hn.
  - destruct (state_subscribe_fresh key fn s Hl Hi)
      as (s1 & Hs1 & Hl1 & Ha1).
    rewrite Hs1 in Hq. destruct Hq as (Hc & Hst & Hn & _).
    destruct (set_returns handlers Date_now location_pathname
      fuel key v s1 _ _ Hl1 Ha1 (Hput s1) Hret) as (s2 & Hs2 & Hdir).
    exists s1, s2. rewrite Hl1, (array_heap _ _ _ Ha1).
    repeat split; try done. intros key'. unfold state_get. by rewrite Hst, Hn.
Qed.

(** X5 — On every page the script can reach, a topic or key named like a
    member of [Object.prototype] ("constructor", "toString", "__proto__",
    ...) makes [on], [off], [emit] and [subscribe] raise a [TypeError]; no
    handler is called and nothing is registered.  [set] on such a key never
    returns normally either. *)
Theorem prototype_names_raise name h rn data s :
  well_formed s → inherited name = true →
  events_on name h s = Threw TypeError s
  ∧ events_off name h s = Threw TypeError s
  ∧ events_emit handlers rn name data s
    = Threw TypeError (utils_log (LogEvent name data) s)
  ∧ state_subscribe name h s = Threw TypeError s
  ∧ (∀ s', state_set handlers rn name data s ≠ Done s').
Proof.
  intros Hwf Hi.
  destruct (inherited_name_raises handlers name h rn data s Hwf Hi)
    as (Hemit & Hon & Hoff & Hsub).
  repeat split; try done.
  intros s' Hs'. unfold state_set in Hs'.
  destruct (store_put name data s) as [s1|] eqn:Hput; [|done].
  destruct (store_put_fields _ _ _ _ Hput) as (_ & _ & Hl1 & _).
  destruct (utils_log_fields (LogState name data) s1) as (_ & _ & Hli & _).
  destruct Hwf as [_ Hwf].
  assert (listeners s !! name = None) as Hl.
  { destruct (listeners s !! name) as [a|] eqn:Hl; [|done].
    destruct (Hwf _ _ Hl). congruence. }
  unfold prop_lookup in Hs'. by rewrite Hli, Hl1, Hl, Hi in Hs'.
Qed.


Lemma debug_off_stable c :
  stable (hid := hid) (client := client) Date_now location_pathname
    (λ s, debug s = false ∧ console s = c).
Proof.
  assert (∀ line s, debug s = false → utils_log line s = s) as Hlog
    by (intros line s Hd; unfold utils_log; by rewrite Hd).
  split; try done.
  - intros event h s Hs. unfold events_on.
    destruct (prop_lookup (events s) event) eqn:Hp; simpl.
    + unfold prop_lookup. simpl. by rewrite lookup_insert_eq.
    + by rewrite Hp.
    + by rewrite Hp.
  - intros event h s Hs. unfold events_off.
    by destruct (prop_lookup (events s) event).
  - intros key fn s Hs. unfold state_subscribe.
    destruct (prop_lookup (listeners s) key) eqn:Hp; simpl.
    + unfold prop_lookup. simpl. by rewrite lookup_insert_eq.
    + by rewrite Hp.
    + by rewrite Hp.
  - intros key v s s' Hs. unfold store_put, proto_setter.
    destruct (store s !! key);
      [|destruct (negb (store_proto_null s) && bool_decide (key = "__proto__"));
        [destruct v|]];
      intros; by simplify_eq.
  - intros line s [Hd Hc]. by rewrite Hlog.
  - intros ty p s [Hd Hc]. unfold analytics_log. by rewrite Hlog.
Qed.


Lemma queue_fifo_stable s0 :
  length (queue s0) ≤ MAX_QUEUE →
  stable (hid := hid) (client := client) Date_now location_pathname
    (λ s, ∃ new,
       queue s = most_recent MAX_QUEUE (queue s0 ++ new)
       ∧ logged s = logged s0 + length new
       ∧ Forall (λ r, payload r ≠ VUndefined) new).
Proof.
  intros Hlen. split; try done.
  - intros event h s Hs. unfold events_on.
    destruct (prop_lookup (events s) event) eqn:Hp; simpl.
    + unfold prop_lookup. simpl. by rewrite lookup_insert_eq.
    + by rewrite Hp.
    + by rewrite Hp.
  - intros event h s Hs. unfold events_off.
    by destruct (prop_lookup (events s) event).
  - intros key fn s Hs. unfold state_subscribe.
    destruct (prop_lookup (listeners s) key) eqn:Hp; simpl.
    + unfold prop_lookup. simpl. by rewrite lookup_insert_eq.
    + by rewrite Hp.
    + by rewrite Hp.
  - intros key v s s' Hs. unfold store_put, proto_setter.
    destruct (store s !! key);
      [|destruct (negb (store_proto_null s) && bool_decide (key = "__proto__"));
        [destruct v|]];
      intros; by simplify_eq.
  - intros line s Hs.
    by destruct (utils_log_fields line s)
      as (_ & _ & _ & _ & _ & _ & _ & -> & _ & ->).
  - intros ty p s (new & Hq & Hn & Hp).
    exists (new ++ [new_event Date_now location_pathname (logged s) ty p]).
    destruct (analytics_log_queue Date_now location_pathname ty p s)
      as (_ & -> & _).
    rewrite analytics_log_most_recent
      by (rewrite Hq; apply length_most_recent).
    rewrite Hq, most_recent_app, <- app_assoc, length_app. simpl.
    split; [done|]. split; [lia|].
    apply Forall_app. split; [done|]. constructor; [|done].
    simpl. by destruct p.
Qed.


Lemma forEach_Ret_trace fuel a arg arr n :
  ∀ k s,
    heap s !! a = Some arr → k + n ≤ length arr →
    (∀ h, h ∈ take n (drop k arr) → handlers h arg = Ret) →
    ∃ s', forEach (λ h, invoke handlers (run (S fuel)) h arg) a k n s = Done s'
          ∧ calls s'
            = calls s ++ ((λ h, Call (depth s) h arg) <$> take n (drop k arr))
          ∧ depth s' = depth s ∧ heap s' = heap s
          ∧ listeners s' = listeners s ∧ store s' = store s
          ∧ store_proto_null s' = store_proto_null s.
Proof.
  induction n as [|n IH]; intros k s Ha Hk Hret.
  - exists s. simpl. by rewrite app_nil_r.
  - assert (is_Some (arr !! k)) as [h Hh] by (apply lookup_lt_is_Some; lia).
    rewrite (forEach_step _ a k n s h) by (by rewrite (array_heap _ _ _ Ha)).
    rewrite (drop_S _ _ _ Hh) in *. simpl in Hret.
    rewrite (invoke_Ret handlers Date_now location_pathname)
      by (apply Hret; left).
    cbn [and_then].
    assert (∀ h', h' ∈ take n (drop (S k) arr) → handlers h' arg = Ret)
      as Hret' by (intros h' Hin; apply Hret; by right).
    destruct (IH (S k) (with_calls (calls s ++ [Call (depth s) h arg]) s)
      Ha ltac:(lia) Hret')
      as (s' & Hs' & Hc' & Hd' & Hh' & Hl' & Hst' & Hn').
    exists s'. split; [done|]. simpl in *.
    rewrite Hc', <- app_assoc. by repeat split.
Qed.

Lemma exec_StateSet fuel key v k s :
  run (S fuel) (StateSet key v k) s
  = and_then (state_set handlers (run fuel) key v s) (run fuel k).
Proof. reflexivity. Qed.

(** X9 — Dispatch is synchronous and nested.  When a handler of a publish
    calls [set(key, v)], the subscribers of [key] run inside that handler's
    call, one level deeper, before the next handler of the publish: the
    call log reads the handlers before [h1], then [h1], then the
    subscribers, then the handlers after [h1].  So a subscriber registered
    before the publish sees a value set by an initializer within the same
    pass. *)
Theorem set_inside_handler fuel event a pre h1 post key v b fns data s :
  well_formed s →
  events s !! event = Some a → heap s !! a = Some (pre ++ h1 :: post) →
  listeners s !! key = Some b → heap s !! b = Some fns →
  (∀ h, h ∈ pre ++ post → handlers h data = Ret) →
  handlers h1 data = StateSet key v Ret →
  (∀ fn, fn ∈ fns → handlers fn v = Ret) →
  ∃ s',
    emit (S (S fuel)) event data s = Done s'
    ∧ calls s'
      = calls s
        ++ ((λ h, Call (depth s) h data) <$> pre)
        ++ [Call (depth s) h1 data]
        ++ ((λ fn, Call (S (depth s)) fn v) <$> fns)
        ++ ((λ h, Call (depth s) h data) <$> post)
    ∧ state_get key s' = v.
Proof.
  intros Hwf He Ha Hl Hb Hret Hb1 Hfns.
  destruct (well_formed_subscribed s key b Hwf Hl) as [Hk _].
  rewrite (events_emit_own handlers _ _ _ _ _ He), (array_heap _ _ _ Ha).
  destruct (utils_log_fields (LogEvent event data) s)
    as (Hh0 & _ & Hl0 & Hst0 & Hn0 & Hd0 & Hc0 & _).
  set (s0 := utils_log (LogEvent event data) s) in *.
  rewrite length_app. simpl length. rewrite forEach_app.
  (* the handlers before h1 *)
  assert (heap s0 !! a = Some (pre ++ h1 :: post)) as Ha0 by congruence.
  assert (0 + length pre ≤ length (pre ++ h1 :: post)) as Hlen0
    by (rewrite length_app; simpl; lia).
  assert (∀ h, h ∈ take (length pre) (drop 0 (pre ++ h1 :: post)) →
            handlers h data = Ret) as Hret0.
  { intros h Hin. apply Hret. rewrite drop_0, take_app_length in Hin.
    apply elem_of_app. by left. }
  destruct (forEach_Ret_trace (S fuel) a data _ _ 0 s0 Ha0 Hlen0 Hret0)
    as (sA & -> & HcA & HdA & HhA & HlA & HstA & HnA).
  rewrite drop_0, take_app_length in HcA.
  cbn [and_then]. rewrite Nat.add_0_l.
  (* h1 and, inside it, the subscribers *)
  assert (array a sA !! length pre = Some h1) as Hidx.
  { rewrite (array_heap a sA (pre ++ h1 :: post)) by congruence.
    by rewrite list_lookup_middle. }
  rewrite (forEach_step _ a (length pre) (length post) sA h1 Hidx).
  unfold invoke at 1. rewrite Hb1, exec_StateSet.
  set (sE := enter h1 data sA).
  assert (listeners sE !! key = Some b) as HlE by (simpl; congruence).
  assert (heap sE !! b = Some fns) as HbE by (simpl; congruence).
  rewrite (state_set_own handlers _ _ _ _ _ HlE Hk), (array_heap _ _ _ HbE).
  destruct (utils_log_fields (LogState key v)
    (with_store (<[key := v]> (store sE)) sE))
    as (Hh1 & _ & Hl1 & Hst1 & Hn1 & Hd1 & Hc1 & _).
  set (s1 := utils_log (LogState key v)
               (with_store (<[key := v]> (store sE)) sE)) in *.
  simpl in Hh1, Hl1, Hst1, Hn1, Hd1, Hc1.
  assert (heap s1 !! b = Some fns) as Hb1' by congruence.
  assert (∀ fn, fn ∈ take (length fns) (drop 0 fns) → handlers fn v = Ret)
    as Hfns0 by (by rewrite drop_0, firstn_all).
  destruct (forEach_Ret_trace fuel b v fns (length fns) 0 s1 Hb1'
    ltac:(simpl; lia) Hfns0)
    as (s2 & -> & Hc2 & Hd2 & Hh2 & Hl2 & Hst2 & Hn2).
  rewrite drop_0, firstn_all in Hc2.
  cbn [and_then]. change (run (S fuel) Ret s2) with (Done s2).
  cbn [leave and_then]. change (depth sE) with (S (depth sA)) in *.
  (* the handlers after h1 *)
  set (sB := with_depth (depth sA) s2).
  assert (heap sB !! a = Some (pre ++ h1 :: post)) as HaB
    by (simpl; congruence).
  assert (S (length pre) + length post ≤ length (pre ++ h1 :: post))
    as HlenB by (rewrite !length_app; simpl; lia).
  assert (∀ h, h ∈ take (length post)
                 (drop (S (length pre)) (pre ++ h1 :: post)) →
            handlers h data = Ret) as HretB.
  { intros h Hin. apply Hret. apply elem_of_app. right.
    change (pre ++ h1 :: post) with (pre ++ [h1] ++ post) in Hin.
    rewrite app_assoc in Hin.
    rewrite drop_app_length' in Hin by (rewrite length_app; simpl; lia).
    by rewrite firstn_all in Hin. }
  destruct (forEach_Ret_trace (S fuel) a data _ _ _ sB HaB HlenB HretB)
    as (s' & -> & Hc' & Hd' & Hh' & Hl' & Hst' & Hn').
  exists s'. split; [done|]. split.
  - rewrite Hc'. simpl.
    change (pre ++ h1 :: post) with (pre ++ [h1] ++ post).
    rewrite (app_assoc pre [h1]), drop_app_length'
      by (rewrite length_app; simpl; lia).
    rewrite firstn_all, Hc2, Hd1, Hc1. simpl.
    rewrite HcA, HdA, Hd0, Hc0, <- !app_assoc. done.
  - unfold state_get. rewrite Hst', Hn'. simpl.
    rewrite Hst2, Hst1. by rewrite lookup_insert_eq.
Qed.

End Composition.

(** ** The further properties on the example pages *)

Lemma nesting_page_well_formed : well_formed nesting_page.
Proof.
  pose proof (exec_well_formed nesting_handlers demo_now demo_pathname 2
    (EventsOn "x" 7 Ret) demo_page demo_page_well_formed) as Hwf.
  unfold nesting_page.
  remember (exec nesting_handlers demo_now demo_pathname 2 (EventsOn "x" 7 Ret)
    demo_page) as o eqn:Ho.
  clear Ho. destruct o; first [exact Hwf | exact demo_page_well_formed].
Qed.


(** Handler 2 is registered twice for ["z"], around handler 5. *)
Lemma unregister_every_occurrence_witness :
  ∃ s1,
    events_off "z" 2 demo_page = Done s1
    ∧ calls s1 = calls demo_page
    ∧ registered "z" s1 = filter (λ x, x ≠ 2) (registered "z" demo_page)
    ∧ (∀ event', event' ≠ "z" →
         registered event' s1 = registered event' demo_page)
    ∧ (∃ s2, events_off "z" 2 s1 = Done s2
             ∧ registered "z" s2 = registered "z" s1)
    ∧ (∀ fuel data,
         (∀ h', h' ∈ registered "z" s1 →
            returns demo_handlers demo_now demo_pathname fuel h' data) →
         ∃ s2,
           events_emit demo_handlers
             (exec demo_handlers demo_now demo_pathname fuel) "z" data s1
           = Done s2
           ∧ direct_calls s1 s2
             = (., data) <$> filter (λ x, x ≠ 2) (registered "z" demo_page)).
Proof.
  apply (unregister_every_occurrence demo_handlers demo_now demo_pathname
    "z" 2 demo_page 2 demo_page_well_formed eq_refl).
Defined.

Lemma set_then_get_witness :
  ∃ s',
    state_set quiet_handlers (exec quiet_handlers demo_now demo_pathname 1)
      "theme" (VStr "dark") demo_page = Done s'
    ∧ direct_calls demo_page s' = (., VStr "dark") <$> subscribed "theme" demo_page
    ∧ state_get "theme" s' = VStr "dark"
    ∧ (∀ key', key' ≠ "theme" → state_get key' s' = state_get key' demo_page).
Proof.
  apply (set_then_get quiet_handlers demo_now demo_pathname
    0 "theme" (VStr "dark") demo_page demo_page_well_formed eq_refl).
  reflexivity.
Defined.

Lemma subscribe_appends_witness :
  ∃ s1 s2,
    state_subscribe "theme" 4 demo_page = Done s1
    ∧ calls s1 = calls demo_page
    ∧ (∀ key', state_get key' s1 = state_get key' demo_page)
    ∧ subscribed "theme" s1 = subscribed "theme" demo_page ++ [4]
    ∧ state_set quiet_handlers (exec quiet_handlers demo_now demo_pathname 1)
        "theme" (VStr "dark") s1 = Done s2
    ∧ direct_calls s1 s2
      = (., VStr "dark") <$> (subscribed "theme" demo_page ++ [4]).
Proof.
  apply (subscribe_appends quiet_handlers demo_now demo_pathname
    1 "theme" 4 (VStr "dark") demo_page demo_page_well_formed eq_refl).
  intros h _ s. eexists. reflexivity.
Defined.

Lemma prototype_names_raise_witness :
  events_on "toString" 1 demo_page = Threw TypeError demo_page
  ∧ events_off "toString" 1 demo_page = Threw TypeError demo_page
  ∧ events_emit demo_handlers (exec demo_handlers demo_now demo_pathname 1)
      "toString" VNull demo_page
    = Threw TypeError (utils_log (LogEvent "toString" VNull) demo_page)
  ∧ state_subscribe "toString" 1 demo_page = Threw TypeError demo_page
  ∧ (∀ s', state_set demo_handlers (exec demo_handlers demo_now demo_pathname 1)
             "toString" VNull demo_page ≠ Done s').
Proof.
  apply (prototype_names_raise demo_handlers "toString" 1
    (exec demo_handlers demo_now demo_pathname 1) VNull demo_page
    demo_page_well_formed eq_refl).
Defined.




(** Handler 7, called third in a publish on ["x"], sets ["theme"]: the
    three subscribers of ["theme"] run one level deeper, before the publish
    goes on. *)
Lemma set_inside_handler_witness :
  ∃ s',
    events_emit nesting_handlers
      (exec nesting_handlers demo_now demo_pathname 2) "x" VNull nesting_page
    = Done s'
    ∧ calls s'
      = calls nesting_page
        ++ ((λ h, Call (depth nesting_page) h VNull) <$> [1; 2])
        ++ [Call (depth nesting_page) 7 VNull]
        ++ ((λ fn, Call (S (depth nesting_page)) fn (VStr "dark")) <$> [2; 5; 2])
        ++ ((λ h, Call (depth nesting_page) h VNull) <$> [])
    ∧ state_get "theme" s' = VStr "dark".
Proof.
  apply (set_inside_handler nesting_handlers demo_now demo_pathname
    0 "x" 0 [1; 2] 7 [] "theme" (VStr "dark") 3 [2; 5; 2] VNull nesting_page
    nesting_page_well_formed eq_refl eq_refl eq_refl eq_refl).
  - intros h Hin. rewrite app_nil_r in Hin.
    apply elem_of_cons in Hin as [->|Hin]; [reflexivity|].
    apply list_elem_of_singleton in Hin. by subst h.
  - reflexivity.
  - intros fn Hin.
    repeat (apply elem_of_cons in Hin as [->|Hin]; [reflexivity|]).
    by apply elem_of_nil in Hin.
Defined.

(** * Properties of the form utilities *)

Lemma regexp_test_language r : ∀ s, regexp_test r s = true ↔ language r s.
Proof.
  induction r as [|[p|p] r IH]; intros s.
  - simpl. by rewrite bool_decide_eq_true.
  - destruct s as [|c s]; simpl.
    + split; [done|]. by intros (? & ? & ? & _).
    + rewrite andb_true_iff, IH. split.
      * intros [? ?]. by exists c, s.
      * by intros (? & ? & [= <- <-] & ? & ?).
  - simpl. induction s as [|c s IHs].
    + split; [done|]. intros (a & s' & Heq & Hne & _). by destruct a.
    + rewrite andb_true_iff, orb_true_iff, IHs, IH. split.
      * intros (Hp & [(a & s' & -> & Hne & Hall & Hl) | Hl]).
        -- exists (c :: a), s'. repeat split; try done. by constructor.
        -- exists [c], s. repeat split; try done. by constructor.
      * intros (a & s' & Heq & Hne & Hall & Hl).
        destruct a as [|c' a]; [done|]. simpl in Heq.
        injection Heq as <- ->. inversion Hall as [|? ? Hp Hall']; subst.
        split; [done|]. destruct a as [|c'' a]; [by right|left].
        by exists (c'' :: a), s'.
Qed.

Lemma not_space_at_true c :
  not_space_at c = true ↔ is_white_space c = false ∧ c ≠ 64%N.
Proof.
  unfold not_space_at.
  rewrite andb_true_iff, !negb_true_iff, N.eqb_neq. done.
Qed.

Lemma trimStart_nil s :
  trimStart s = [] ↔ Forall (λ c, is_white_space c = true) s.
Proof.
  induction s as [|c s IH]; simpl; [done|].
  destruct (is_white_space c) eqn:Hc.
  - rewrite IH. split; [by constructor|]. by inversion 1.
  - split; [done|]. inversion 1; congruence.
Qed.

Lemma trimStart_head s c s' :
  trimStart s = c :: s' → is_white_space c = false.
Proof.
  induction s as [|c0 s IH]; simpl; [done|].
  destruct (is_white_space c0) eqn:Hc; [done|]. by intros [= <- <-].
Qed.

Lemma trim_nil s :
  trim s = [] ↔ Forall (λ c, is_white_space c = true) s.
Proof.
  rewrite <- trimStart_nil. unfold trim. split.
  - intros H. apply (f_equal reverse) in H.
    rewrite reverse_involutive, reverse_nil in H.
    apply trimStart_nil in H. rewrite Forall_reverse in H.
    destruct (trimStart s) as [|c s'] eqn:Hs; [done|].
    apply trimStart_head in Hs. inversion H; congruence.
  - by intros ->.
Qed.

Lemma isEmpty_blank value :
  isEmpty value = true ↔ Forall (λ c, is_white_space c = true) value.
Proof.
  unfold isEmpty, falsy.
  rewrite orb_true_iff, !bool_decide_eq_true, trim_nil. split.
  - intros [->|?]; [constructor|done].
  - by right.
Qed.

(** X10.  [isEmpty] answers [true] exactly for the strings made of white
    space only, the empty string among them: a value with one character
    that is not white space, wherever it stands, is not empty. *)
Theorem isEmpty_white_space_only value :
  (isEmpty value = true ↔ Forall (λ c, is_white_space c = true) value)
  ∧ (isEmpty value = false ↔ ∃ c, c ∈ value ∧ is_white_space c = false).
Proof.
  split; [apply isEmpty_blank|].
  rewrite <- not_true_iff_false, isEmpty_blank, <- Exists_Forall_neg.
  - rewrite Exists_exists. split.
    + intros (c & ? & Hc). exists c. split; [done|].
      by apply not_true_iff_false.
    + intros (c & ? & Hc). exists c. split; [done|]. congruence.
  - intros c. destruct (is_white_space c); [by left|by right].
Qed.

(** X11.  [isEmail] answers [true] exactly for the strings [a@b.c] where
    [a], [b] and [c] are not empty and hold neither white space nor a
    further ["@"]; so an accepted string has one ["@"], a ["."] somewhere
    after the character that follows it, and no white space at all. *)
Theorem isEmail_shape value :
  isEmail value = true
  ↔ ∃ a b c,
      value = a ++ [64%N] ++ b ++ [46%N] ++ c
      ∧ a ≠ [] ∧ b ≠ [] ∧ c ≠ []
      ∧ Forall (λ x, is_white_space x = false ∧ x ≠ 64%N) (a ++ b ++ c).
Proof.
  unfold isEmail, email_pattern. rewrite regexp_test_language.
  cbn [language]. split.
  - intros (a & s1 & -> & Ha & Hfa & x & s2 & -> & Hx & b & s3 & -> & Hb & Hfb
            & y & s4 & -> & Hy & c & s5 & -> & Hc & Hfc & ->).
    apply N.eqb_eq in Hx, Hy. subst x y.
    exists a, b, c. rewrite app_nil_r. repeat split; try done.
    rewrite !Forall_app. repeat split;
      (eapply Forall_impl; [eassumption|]); intros ?; apply not_space_at_true.
  - intros (a & b & c & -> & Ha & Hb & Hc & Hall).
    rewrite !Forall_app in Hall. destruct Hall as (Hfa & Hfb & Hfc).
    exists a, ([64%N] ++ b ++ [46%N] ++ c). repeat split; try done.
    { eapply Forall_impl; [eassumption|]. intros ?; apply not_space_at_true. }
    exists 64%N, (b ++ [46%N] ++ c). repeat split.
    exists b, ([46%N] ++ c). repeat split; try done.
    { eapply Forall_impl; [eassumption|]. intros ?; apply not_space_at_true. }
    exists 46%N, c. repeat split.
    exists c, []. rewrite app_nil_r. repeat split; try done.
    eapply Forall_impl; [eassumption|]. intros ?; apply not_space_at_true.
Qed.

Lemma isEmail_not_blank value :
  isEmail value = true → isEmpty value = false.
Proof.
  intros He. apply not_true_is_false. intros Hb.
  apply regexp_test_language in He. unfold email_pattern in He.
  cbn [language] in He.
  destruct He as (a & s1 & -> & Ha & Hfa & _).
  apply isEmpty_blank in Hb.
  destruct a as [|x a]; [done|].
  inversion Hfa as [|? ? Hx _]; subst. inversion Hb as [|? ? Hw _]; subst.
  apply not_space_at_true in Hx as [Hx _]. congruence.
Qed.

(** X12.  The verdict of [validateField] and the message that goes with
    it.  An input of type ["email"] is valid exactly when its value is an
    email address; any other input exactly when its value is not white
    space only.  A valid input gets the empty message.  An invalid input of
    type ["email"] always gets ["Enter a valid email address."], also when
    it is empty; any other invalid input gets ["This field is required."]. *)
Theorem validateField_verdict value type :
  (validateField value type).1
  = (if bool_decide (type = "email") then isEmail value
     else negb (bool_decide (Forall (λ c, is_white_space c = true) value)))
  ∧ (validateField value type).2
    = (if (validateField value type).1 then ""
       else if bool_decide (type = "email")
            then "Enter a valid email address."
            else "This field is required.").
Proof.
  pose proof (isEmail_not_blank value) as Hnb.
  pose proof (isEmpty_blank value) as Hws.
  unfold validateField.
  destruct (bool_decide (type = "email")); simpl.
  - destruct (isEmail value); simpl.
    + by rewrite Hnb.
    + by destruct (isEmpty value).
  - rewrite andb_false_l || simpl.
    destruct (isEmpty value) eqn:He; simpl.
    + rewrite bool_decide_eq_true_2; [done|]. by apply Hws.
    + rewrite bool_decide_eq_false_2; [done|]. intros H. apply Hws in H.
      congruence.
Qed.

(** * Properties of the timing utilities *)

Section TimingProperties.

Context {A : Type}.
Implicit Types (d : @debounced A) (t : @throttled A) (e : @timing_event A).

Lemma filter_timer_same (id : nat) (a : A) :
  filter (λ t : nat * A, t.1 ≠ id) [(id, a)] = [].
Proof. by rewrite filter_cons_False by (by intros H; apply H). Qed.

Lemma filter_id_same (id : nat) : filter (λ i, i ≠ id) [id] = [].
Proof. by rewrite filter_cons_False by (by intros H; apply H). Qed.

Lemma debounced_call_ok args d :
  debounced_ok d →
  debounced_ok (debounced_call args d)
  ∧ debounce_pending (debounced_call args d) = [(debounce_next d, args)]
  ∧ debounce_applied (debounced_call args d) = debounce_applied d.
Proof.
  intros [Hlt Hp].
  assert (debounce_pending (debounced_call args d) = [(debounce_next d, args)])
    as Hnew.
  { unfold debounced_call. simpl.
    destruct Hp as [Hp|(id & a & Hp & Ht)]; rewrite Hp.
    - by destruct (timer d).
    - rewrite Ht. by rewrite filter_timer_same. }
  split; [|done]. split.
  - rewrite Hnew. constructor; [simpl; lia|constructor].
  - right. by exists (debounce_next d), args.
Qed.

Lemma debounced_timeout_ok id d :
  debounced_ok d → debounced_ok (debounced_timeout id d).
Proof.
  intros [Hlt Hp]. unfold debounced_timeout.
  destruct Hp as [Hp|(id' & a & Hp & Ht)]; rewrite Hp; simpl.
  - split; [done|by left].
  - destruct (decide (id' = id)) as [->|Hne]; simpl.
    + rewrite filter_timer_same. split; [constructor|by left].
    + split; [done|]. right. by exists id', a.
Qed.

Lemma debounced_step_ok d e :
  debounced_ok d → debounced_ok (debounced_step d e).
Proof.
  destruct e; simpl; intros Hd.
  - by apply debounced_call_ok.
  - by apply debounced_timeout_ok.
Qed.

Lemma debounced_history_ok es d :
  debounced_ok d → debounced_ok (foldl debounced_step d es).
Proof.
  revert d. induction es as [|e es IH]; intros d Hd; simpl; [done|].
  by apply IH, debounced_step_ok.
Qed.

Lemma debounce_ok : debounced_ok (@debounce A).
Proof. split; [constructor|by left]. Qed.

Lemma debounced_burst_ok burst d :
  debounced_ok d →
  debounced_ok (foldl (λ d a, debounced_call a d) d burst)
  ∧ debounce_applied (foldl (λ d a, debounced_call a d) d burst)
    = debounce_applied d.
Proof.
  revert d. induction burst as [|a burst IH]; intros d Hd; simpl; [done|].
  destruct (debounced_call_ok a d Hd) as (Hok & _ & Happ).
  destruct (IH _ Hok) as [? ->]. done.
Qed.

(** X13.  Whatever happened to a debounced function before, after a burst
    of calls one timer is left, that of the last call: when it runs, [fn]
    is applied once, to the arguments of the last call; the calls before
    it in the burst never reach [fn], no other timer does anything, and
    the calls themselves apply nothing. *)
Theorem debounce_last_call_wins es burst args :
  let d := foldl debounced_step debounce es in
  let d' := foldl (λ d a, debounced_call a d) d (burst ++ [args]) in
  debounce_applied d' = debounce_applied d
  ∧ ∃ id,
      timer d' = Some id
      ∧ debounce_pending d' = [(id, args)]
      ∧ debounce_applied (debounced_timeout id d') = debounce_applied d ++ [args]
      ∧ debounce_pending (debounced_timeout id d') = []
      ∧ (∀ id', id' ≠ id → debounced_timeout id' d' = d').
Proof.
  intros d d'. subst d'. rewrite foldl_app. simpl.
  pose proof (debounced_history_ok es debounce debounce_ok) as Hd.
  fold d in Hd. destruct (debounced_burst_ok burst d Hd) as [Hok Happ].
  set (d1 := foldl (λ d a, debounced_call a d) d burst) in *.
  destruct (debounced_call_ok args d1 Hok) as (_ & Hp & Ha).
  split; [congruence|]. exists (debounce_next d1).
  split; [done|]. split; [done|].
  unfold debounced_timeout. rewrite Hp. simpl.
  rewrite decide_True by done. simpl. rewrite filter_timer_same.
  rewrite Happ. repeat split; try done.
  intros id' Hne. by rewrite decide_False by done.
Qed.

Lemma throttled_call_ok args r t :
  throttled_ok t → throttled_ok (throttled_call args r t).2.
Proof.
  intros [Hlt Hp]. unfold throttled_call.
  destruct (inThrottle t) eqn:Hin; simpl.
  - split; [done|]. by rewrite Hin.
  - destruct r; simpl.
    + done.
    + rewrite Hp. split; [repeat constructor; lia|]. by eexists.
Qed.

Lemma throttled_timeout_ok id t :
  throttled_ok t → throttled_ok (throttled_timeout id t).
Proof.
  intros [Hlt Hp]. unfold throttled_timeout.
  case_bool_decide as Hin; [|done]. simpl.
  destruct (inThrottle t).
  - destruct Hp as [id' Hp]. rewrite Hp in *.
    apply list_elem_of_singleton in Hin. subst id'.
    rewrite filter_id_same. split; [constructor|done].
  - rewrite Hp in Hin. by apply elem_of_nil in Hin.
Qed.

Lemma throttled_step_ok t e :
  throttled_ok t → throttled_ok (throttled_step t e).
Proof.
  destruct e; simpl; intros Ht.
  - by apply throttled_call_ok.
  - by apply throttled_timeout_ok.
Qed.

Lemma throttled_history_ok es t :
  throttled_ok t → throttled_ok (foldl throttled_step t es).
Proof.
  revert t. induction es as [|e es IH]; intros t Ht; simpl; [done|].
  by apply IH, throttled_step_ok.
Qed.

Lemma throttle_ok : throttled_ok (@throttle A).
Proof. split; [constructor|done]. Qed.

Lemma throttled_burst_dropped (burst : list (A * bool)) t :
  inThrottle t = true →
  foldl throttled_step t ((λ c, Called c.1 c.2) <$> burst) = t.
Proof.
  intros Hin. induction burst as [|[a r] burst IH]; simpl; [done|].
  unfold throttled_call. by rewrite Hin.
Qed.


End TimingProperties.


(** * Properties of the modal engine *)

Section ModalProperties.

Context {hid : Type} `{EqDecision hid} {client : Type}.
Variable handlers : hid → value → @prog hid client.
Variable Date_now : nat → Z.
Variable location_pathname : nat → string.

Abbreviation run := (exec handlers Date_now location_pathname).
Abbreviation emit fuel := (events_emit handlers (run fuel)).
Abbreviation open fuel := (modal_open handlers (run fuel)).
Abbreviation close fuel := (modal_close handlers (run fuel)).

Implicit Types (s : @orbital hid client) (m : modal_state) (h : hid).

(** When every handler returns, so does a publish on any topic that is
    not named like a member of [Object.prototype]. *)
Lemma emit_total fuel event data s :
  well_formed s → inherited event = false →
  (∀ h, returns handlers Date_now location_pathname fuel h data) →
  ∃ s', emit fuel event data s = Done s'
        ∧ well_formed s'
        ∧ direct_calls s s' = (., data) <$> registered event s.
Proof.
  intros Hwf Hi Hret.
  pose proof (events_emit_stable handlers Date_now location_pathname
    well_formed (well_formed_stable Date_now location_pathname)
    (run fuel) event data s
    (exec_well_formed handlers Date_now location_pathname fuel) Hwf) as Hst.
  unfold registered. destruct (events s !! event) as [a|] eqn:He.
  - destruct (well_formed_registered s event a Hwf He) as [_ [l Ha]].
    rewrite (array_heap _ _ _ Ha).
    destruct (emit_returns handlers Date_now location_pathname
      fuel event data s a l He Ha) as (s' & Hs' & Hdir); [by intros|].
    rewrite Hs' in Hst. by exists s'.
  - rewrite events_emit_absent in * by done.
    eexists. split; [done|]. split; [done|].
    apply direct_calls_none.
    by destruct (utils_log_fields (LogEvent event data) s)
      as (_ & _ & _ & _ & _ & _ & -> & _).
Qed.

(** X15.  [open] does not close the modal that is active.  After
    [open(el1); open(el2); close()], with handlers that return, no modal is
    active and the body is unlocked, but [el1] still has the class
    ["is-open"]; ["modal:close"] was published for [el2] only; and a
    further [close()] does nothing at all, so [el1] stays open. *)
Theorem second_open_orphans_first fuel el1 el2 m s :
  well_formed s → el1 ≠ el2 →
  (∀ h data, returns handlers Date_now location_pathname fuel h data) →
  ∃ ma sa mb sb mc sc,
    open fuel (Some el1) m s = (ma, Done sa)
    ∧ open fuel (Some el2) ma sa = (mb, Done sb)
    ∧ close fuel mb sb = (mc, Done sc)
    ∧ activeModal mc = None
    ∧ body_modal_open mc = false
    ∧ (el1 ∈ is_open mc) ∧ (el2 ∉ is_open mc)
    ∧ direct_calls sb sc = (., VObject el2) <$> registered "modal:close" sb
    ∧ close fuel mc sc = (mc, Done sc).
Proof.
  intros Hwf Hne Hret.
  destruct (emit_total fuel "modal:open" (VObject el1) s Hwf eq_refl)
    as (sa & Hsa & Hwfa & _); [by intros|].
  destruct (emit_total fuel "modal:open" (VObject el2) sa Hwfa eq_refl)
    as (sb & Hsb & Hwfb & _); [by intros|].
  destruct (emit_total fuel "modal:close" (VObject el2) sb Hwfb eq_refl)
    as (sc & Hsc & Hwfc & Hdir); [by intros|].
  exists (ModalState (Some el1) ({[el1]} ∪ is_open m) true), sa,
    (ModalState (Some el2) ({[el2]} ∪ ({[el1]} ∪ is_open m)) true), sb,
    (ModalState None (({[el2]} ∪ ({[el1]} ∪ is_open m)) ∖ {[el2]}) false), sc.
  unfold modal_open, modal_close. cbn [activeModal is_open body_modal_open].
  rewrite Hsa, Hsb, Hsc. repeat split; try done.
  - rewrite elem_of_difference, !elem_of_union, !elem_of_singleton.
    split; [by right; left|done].
  - rewrite elem_of_difference, elem_of_singleton. by intros [_ ?].
Qed.

(** X16.  [close] is not error-isolated either.  When a handler of
    ["modal:close"] raises, [close] raises with it after the classes have
    been removed: the modal is no longer shown as open and the body is
    unlocked, but [activeModal] still holds the modal, so that a later
    [close()] is not the no-op it is when no modal is active. *)
Theorem close_handler_raises_keeps_active fuel el m a pre h post e s :
  activeModal m = Some el →
  events s !! "modal:close" = Some a →
  heap s !! a = Some (pre ++ h :: post) →
  (∀ h', h' ∈ pre →
     returns handlers Date_now location_pathname fuel h' (VObject el)) →
  raises handlers Date_now location_pathname fuel h (VObject el) e →
  ∃ m' s',
    close fuel m s = (m', Threw e s')
    ∧ direct_calls s s' = (., VObject el) <$> (pre ++ [h])
    ∧ activeModal m' = Some el
    ∧ (el ∉ is_open m')
    ∧ body_modal_open m' = false
    ∧ ∀ fuel' s'', close fuel' m' s'' ≠ (m', Done s'').
Proof.
  intros Hact He Ha Hret Hraise.
  assert (∃ s', emit fuel "modal:close"
                  (VObject el) s = Threw e s'
                ∧ direct_calls s s' = (., VObject el) <$> (pre ++ [h]))
    as (s' & Hs' & Hdir).
  { rewrite (events_emit_own _ _ _ _ _ _ He), (array_heap _ _ _ Ha).
    destruct (utils_log_fields (LogEvent "modal:close" (VObject el)) s)
      as (Hh & _ & _ & _ & _ & Hd & Hc & _).
    destruct (forEach_raises handlers Date_now location_pathname
      fuel a (VObject el) pre h post e Hret Hraise
      (utils_log (LogEvent "modal:close" (VObject el)) s) [])
      as (s' & Hs' & Hdir); [by rewrite Hh, app_nil_r|].
    exists s'. split; [done|].
    by rewrite <- (direct_calls_frame s
      (utils_log (LogEvent "modal:close" (VObject el)) s) s'). }
  exists (ModalState (Some el) (is_open m ∖ {[el]}) false), s'.
  unfold modal_close. rewrite Hact. cbn [activeModal is_open body_modal_open].
  rewrite Hs'. repeat split; try done.
  { rewrite elem_of_difference, elem_of_singleton. by intros [_ ?]. }
  intros fuel' s''.
  destruct (events_emit _ _ "modal:close" (VObject el) s''); simpl;
    congruence.
Qed.

End ModalProperties.

Lemma modal_page_well_formed : well_formed modal_page.
Proof.
  pose proof (exec_well_formed demo_handlers demo_now demo_pathname 4
    (EventsOn "modal:open" 2
      (EventsOn "modal:close" 2 (EventsOn "modal:close" 5 Ret)))
    demo_page demo_page_well_formed) as Hwf.
  unfold modal_page.
  remember (exec demo_handlers demo_now demo_pathname 4
    (EventsOn "modal:open" 2
      (EventsOn "modal:close" 2 (EventsOn "modal:close" 5 Ret)))
    demo_page) as o eqn:Ho.
  clear Ho. destruct o; first [exact Hwf | exact demo_page_well_formed].
Qed.

(** Element 8 is opened, then element 9, then [close()] is called. *)
Lemma second_open_orphans_first_witness :
  ∃ ma sa mb sb mc sc,
    modal_open quiet_handlers (exec quiet_handlers demo_now demo_pathname 1)
      (Some 8) (ModalState None ∅ false) modal_page = (ma, Done sa)
    ∧ modal_open quiet_handlers (exec quiet_handlers demo_now demo_pathname 1)
        (Some 9) ma sa = (mb, Done sb)
    ∧ modal_close quiet_handlers (exec quiet_handlers demo_now demo_pathname 1)
        mb sb = (mc, Done sc)
    ∧ activeModal mc = None
    ∧ body_modal_open mc = false
    ∧ (8 ∈ is_open mc) ∧ (9 ∉ is_open mc)
    ∧ direct_calls sb sc = (., VObject 9) <$> registered "modal:close" sb
    ∧ modal_close quiet_handlers (exec quiet_handlers demo_now demo_pathname 1)
        mc sc = (mc, Done sc).
Proof.
  apply (second_open_orphans_first quiet_handlers demo_now demo_pathname
    1 8 9 (ModalState None ∅ false) modal_page modal_page_well_formed).
  - lia.
  - intros h data s. eexists. reflexivity.
Defined.

(** Element 9 is active; handler 5 throws when ["modal:close"] reaches
    it. *)
Lemma close_handler_raises_keeps_active_witness :
  ∃ m' s',
    modal_close demo_handlers (exec demo_handlers demo_now demo_pathname 1)
      (ModalState (Some 9) {[9]} true) modal_page
    = (m', Threw (Thrown (VStr "boom")) s')
    ∧ direct_calls modal_page s' = (., VObject 9) <$> ([2] ++ [5])
    ∧ activeModal m' = Some 9
    ∧ (9 ∉ is_open m')
    ∧ body_modal_open m' = false
    ∧ ∀ fuel' s'',
        modal_close demo_handlers
          (exec demo_handlers demo_now demo_pathname fuel') m' s''
        ≠ (m', Done s'').
Proof.
  apply (close_handler_raises_keeps_active demo_handlers demo_now
    demo_pathname 1 9 (ModalState (Some 9) {[9]} true) 5 [2] 5 []
    (Thrown (VStr "boom")) modal_page eq_refl eq_refl eq_refl).
  - intros h Hin s. apply list_elem_of_singleton in Hin. subst h.
    eexists. reflexivity.
  - intros s. eexists. reflexivity.
Defined.

(** * Snapshots of the telemetry queue *)

Section Snapshot.

Context {hid : Type} `{EqDecision hid} {client : Type}.
Variable handlers : hid → value → @prog hid client.
Variable Date_now : nat → Z.
Variable location_pathname : nat → string.

Abbreviation run := (exec handlers Date_now location_pathname).

Lemma copies_stable c :
  stable (hid := hid) (client := client) Date_now location_pathname
    (λ s, copies s = c).
Proof.
  split; try done.
  - intros event h s Hs. unfold events_on.
    destruct (prop_lookup (events s) event) eqn:Hp; simpl.
    + unfold prop_lookup. simpl. by rewrite lookup_insert_eq.
    + by rewrite Hp.
    + by rewrite Hp.
  - intros event h s Hs. unfold events_off.
    by destruct (prop_lookup (events s) event).
  - intros key fn s Hs. unfold state_subscribe.
    destruct (prop_lookup (listeners s) key) eqn:Hp; simpl.
    + unfold prop_lookup. simpl. by rewrite lookup_insert_eq.
    + by rewrite Hp.
    + by rewrite Hp.
  - intros key v s s' Hs. unfold store_put, proto_setter.
    destruct (store s !! key);
      [|destruct (negb (store_proto_null s) && bool_decide (key = "__proto__"));
        [destruct v|]];
      intros; by simplify_eq.
  - intros line s Hs.
    by destruct (utils_log_fields line s)
      as (_ & _ & _ & _ & _ & _ & _ & _ & -> & _).
  - intros ty p s Hs.
    by destruct (analytics_log_queue Date_now location_pathname ty p s)
      as (_ & _ & ->).
Qed.


End Snapshot.
